(** * lmstudio.js: prompt preprocessing controllers, prediction entry points
      and the companion-executable check

    A shallow embedding of
    - [PromptPreprocessController] and its step controllers,
    - [LLMModel.complete] / [LLMModel.respond],
    - [UtilBinary.check],
    - the [OngoingPrediction] result object (whose file is imported by
      [LLMModel] but is not part of the sources at hand),
    together with the properties stated about them. *)

From Stdlib Require Import Ascii.
From Stdlib Require QArith.
From stdpp Require Import gmap strings list pretty.

(** ** JavaScript control flow *)

Module Js.

(** What a [throw] carries.  [TypeError] is what the runtime raises when a
    property of [undefined] is read or a missing method is called. *)
Inductive JSError :=
| Error (message : string)
| TypeError.

(** How the evaluation of a statement or of a call ends. [Diverges] is a
    [while] loop that never leaves. *)
Inductive Completion (A : Type) :=
| Normal (a : A)
| Throw (e : JSError)
| Diverges.
Arguments Normal {A} a.
Arguments Throw {A} e.
Arguments Diverges {A}.

(** The settled state of a promise. *)
Inductive Promise (A : Type) :=
| Fulfilled (a : A)
| Rejected (e : JSError).
Arguments Fulfilled {A} a.
Arguments Rejected {A} e.

(** [try { body } catch { handler }]: the handler runs only when the body
    throws. *)
Definition try_catch {A} (body : Completion A)
    (handler : JSError → Completion A) : Completion A :=
  match body with
  | Throw e => handler e
  | c => c
  end.

(** [await p]: a rejection of [p] is thrown at the [await]. *)
Definition await {A} (p : Promise A) : Completion A :=
  match p with
  | Fulfilled a => Normal a
  | Rejected e => Throw e
  end.

(** An expression statement [e;]: the value is dropped, a throw goes on. *)
Definition exprStmt {A} (e : Completion A) : Completion unit :=
  match e with
  | Normal _ => Normal tt
  | Throw e => Throw e
  | Diverges => Diverges
  end.

(** The promise an [async] function hands back for a body that ended (a
    body that diverges never settles its promise). *)
Definition async {A} (body : Completion A) : option (Promise A) :=
  match body with
  | Normal a => Some (Fulfilled a)
  | Throw e => Some (Rejected e)
  | Diverges => None
  end.

End Js.

(** ** PromptPreprocessController and the step controllers *)

Module Preprocess.
Import Js.

(** Objects live in two stores and are referred to by their address:
    - step controller objects ([addr]),
    - [StatusStepState] objects ([sref]); these are shared between the
      caller, the controllers and the updates sent, and [setText] writes
      into them in place. *)
Abbreviation addr := nat (only parsing).
Abbreviation sref := nat (only parsing).

Record StatusStepState := mkState { status : string; text : string }.

(** Declared in lms-shared-types; an opaque payload that is only passed
    on. *)
Abbreviation CitationSource := string (only parsing).

Inductive UpdateLocation :=
| afterId (id : string).

Inductive PromptPreprocessorUpdate :=
| status_create (id : string) (state : sref)
    (location : option UpdateLocation) (indentation : option nat)
| status_update (id : string) (state : sref)
| citationBlock_create (id : string) (citedText : string)
    (source : CitationSource)
| debugInfoBlock_create (id : string) (debugInfo : string).

(** The three classes implementing [PredictionStepController]; the
    [controller] field of each is the one controller of the [World]. *)
Inductive PredictionStepController :=
| PredictionProcessStatusController (id : string) (indentation : nat)
    (lastSubStatus : addr) (lastState : sref)
| PredictionProcessCitationBlockController (id : string)
| PredictionProcessDebugInfoBlockController (id : string).

Definition stepId (o : PredictionStepController) : string :=
  match o with
  | PredictionProcessStatusController id _ _ _ => id
  | PredictionProcessCitationBlockController id => id
  | PredictionProcessDebugInfoBlockController id => id
  end.

(** One [PromptPreprocessController] with everything reachable from it.
    [handled] lists the calls of [coprocessor.handleUpdate], oldest
    first; the coprocessor is a sink: it records the update and
    returns. *)
Record World := mkWorld {
  endedFlag : bool;
  stepControllers : list addr;
  objects : list PredictionStepController;
  states : list StatusStepState;
  handled : list PromptPreprocessorUpdate;
}.

Definition initial : World :=
  {| endedFlag := false; stepControllers := []; objects := [];
     states := []; handled := [] |}.

(** *** The monad of methods: state that survives a throw *)

Definition M (A : Type) : Type := World → Completion A * World.

Definition ret {A} (a : A) : M A := λ w, (Normal a, w).
Definition bind {A B} (m : M A) (k : A → M B) : M B := λ w,
  match m w with
  | (Normal a, w') => k a w'
  | (Throw e, w') => (Throw e, w')
  | (Diverges, w') => (Diverges, w')
  end.
Definition throw {A} (e : JSError) : M A := λ w, (Throw e, w).
Definition diverge {A} : M A := λ w, (Diverges, w).
Definition get : M World := λ w, (Normal w, w).
Definition modify (f : World → World) : M unit := λ w, (Normal tt, f w).

Declare Scope method_scope.
Delimit Scope method_scope with method.
Notation "x <- m ;; k" := (bind m (λ x, k))
  (at level 100, m at next level, right associativity) : method_scope.
Notation "m ;;; k" := (bind m (λ _, k))
  (at level 100, right associativity) : method_scope.
Open Scope method_scope.

(** [for (const x of xs) body(x)] *)
Fixpoint forOf {A} (xs : list A) (body : A → M unit) : M unit :=
  match xs with
  | [] => ret tt
  | x :: xs' => body x ;;; forOf xs' body
  end.

(** *** Store access *)

Definition set_endedFlag (b : bool) (w : World) : World :=
  {| endedFlag := b; stepControllers := stepControllers w;
     objects := objects w; states := states w; handled := handled w |}.
Definition set_stepControllers (l : list addr) (w : World) : World :=
  {| endedFlag := endedFlag w; stepControllers := l;
     objects := objects w; states := states w; handled := handled w |}.
Definition set_objects (l : list PredictionStepController) (w : World)
    : World :=
  {| endedFlag := endedFlag w; stepControllers := stepControllers w;
     objects := l; states := states w; handled := handled w |}.
Definition set_states (l : list StatusStepState) (w : World) : World :=
  {| endedFlag := endedFlag w; stepControllers := stepControllers w;
     objects := objects w; states := l; handled := handled w |}.
Definition set_handled (l : list PromptPreprocessorUpdate) (w : World)
    : World :=
  {| endedFlag := endedFlag w; stepControllers := stepControllers w;
     objects := objects w; states := states w; handled := l |}.

(** Reading through a reference that holds no object is reading a
    property of [undefined]. *)
Definition deref (a : addr) : M PredictionStepController := λ w,
  match objects w !! a with
  | Some o => (Normal o, w)
  | None => (Throw TypeError, w)
  end.
Definition readState (r : sref) : M StatusStepState := λ w,
  match states w !! r with
  | Some s => (Normal s, w)
  | None => (Throw TypeError, w)
  end.
(** [new C(...)]: the object gets the next free address; [mk] receives
    that address as [this]. *)
Definition new (mk : addr → PredictionStepController) : M addr := λ w,
  let a := length (objects w) in
  (Normal a, set_objects (objects w ++ [mk a]) w).
(** An object literal [{ status, text }]. *)
Definition newState (s : StatusStepState) : M sref := λ w,
  (Normal (length (states w)), set_states (states w ++ [s]) w).
Definition store (a : addr) (o : PredictionStepController) : M unit :=
  modify (λ w, set_objects (<[a := o]> (objects w)) w).
Definition storeState (r : sref) (s : StatusStepState) : M unit :=
  modify (λ w, set_states (<[r := s]> (states w)) w).

(** *** createId

    [`${Date.now()}-${Math.random()}`].  The clock reading and the random
    number are inputs from the environment: a [Draw] is what the two
    calls returned, the clock as a count of milliseconds and the random
    number as the text JavaScript prints for it. *)
Record Draw := mkDraw { now : N; random : string }.

Definition createId (d : Draw) : string :=
  pretty (now d) +:+ "-" +:+ random d.

(** *** PromptPreprocessController *)

Definition hasEnded : M bool := λ w, (Normal (endedFlag w), w).

Definition handleUpdate (update : PromptPreprocessorUpdate) : M unit :=
  modify (λ w, set_handled (handled w ++ [update]) w).

Definition sendUpdate (update : PromptPreprocessorUpdate) : M unit :=
  ended <- hasEnded ;;
  if ended : bool then throw (Error "Prediction process has ended.")
  else handleUpdate update.

(** *** PredictionProcessStatusController *)

Definition setText (this : addr) (text : string) : M unit :=
  o <- deref this ;;
  match o with
  | PredictionProcessStatusController id _ _ lastState =>
      s <- readState lastState ;;
      storeState lastState {| status := status s; text := text |} ;;;
      sendUpdate (status_update id lastState)
  | _ => throw TypeError
  end.

Definition setState (this : addr) (state : sref) : M unit :=
  o <- deref this ;;
  match o with
  | PredictionProcessStatusController id indentation lastSubStatus _ =>
      store this
        (PredictionProcessStatusController id indentation lastSubStatus
           state) ;;;
      sendUpdate (status_update id state)
  | _ => throw TypeError
  end.

(** [["loading", "waiting"].includes(s)] *)
Definition includes (xs : list string) (s : string) : bool :=
  bool_decide (s ∈ xs).

(** The [[ensureEnded]] method of each of the three classes. *)
Definition ensureEnded (this : addr) : M unit :=
  o <- deref this ;;
  match o with
  | PredictionProcessStatusController _ _ _ lastState =>
      s <- readState lastState ;;
      if includes ["loading"; "waiting"] (status s) then
        state <- newState {| status := "canceled"; text := text s |} ;;
        setState this state
      else ret tt
  | PredictionProcessCitationBlockController _ => ret tt
  | PredictionProcessDebugInfoBlockController _ => ret tt
  end.

(** [getNestedLastSubStatusBlockId]: the [while] loop follows
    [lastSubStatus] until an object that is its own [lastSubStatus].
    [walk n] performs at most [n] iterations; [None] is a loop still
    running after them. *)
Fixpoint walk (n : nat) (objs : list PredictionStepController)
    (current : addr) : option (Completion string) :=
  match objs !! current with
  | Some (PredictionProcessStatusController id _ lastSubStatus _) =>
      if decide (current = lastSubStatus) then Some (Normal id)
      else match n with
           | 0 => None
           | S n' => walk n' objs lastSubStatus
           end
  | _ => Some (Throw TypeError)
  end.

(** A walk that has not stopped after as many iterations as there are
    objects has come back to an object it left, and goes round forever. *)
Definition getNestedLastSubStatusBlockId (this : addr) : M string :=
  o <- deref this ;;
  match o with
  | PredictionProcessStatusController _ _ lastSubStatus _ =>
      w <- get ;;
      match walk (length (objects w)) (objects w) lastSubStatus with
      | Some (Normal id) => ret id
      | Some (Throw e) => throw e
      | Some Diverges | None => diverge
      end
  | _ => throw TypeError
  end.

Definition addSubStatus (this : addr) (d : Draw) (initialState : sref)
    : M addr :=
  o <- deref this ;;
  match o with
  | PredictionProcessStatusController thisId indentation _ lastState =>
      let id := createId d in
      after <- getNestedLastSubStatusBlockId this ;;
      sendUpdate (status_create id initialState (Some (afterId after))
                    (Some (indentation + 1))) ;;;
      controller <- new (λ self,
        PredictionProcessStatusController id (indentation + 1) self
          initialState) ;;
      o' <- deref this ;;
      match o' with
      | PredictionProcessStatusController _ _ _ lastState' =>
          store this (PredictionProcessStatusController thisId indentation
                        controller lastState') ;;;
          ret controller
      | _ => throw TypeError
      end
  | _ => throw TypeError
  end.

(** *** PromptPreprocessController, continued *)

Definition end_ : M unit :=
  w <- get ;;
  forOf (stepControllers w) ensureEnded ;;;
  modify (set_endedFlag true).

Definition push_stepController (a : addr) : M unit :=
  modify (λ w, set_stepControllers (stepControllers w ++ [a]) w).

Definition createStatus (d : Draw) (initialState : sref) : M addr :=
  let id := createId d in
  sendUpdate (status_create id initialState None None) ;;;
  statusController <- new (λ self,
    PredictionProcessStatusController id 0 self initialState) ;;
  push_stepController statusController ;;;
  ret statusController.

Definition createCitationBlock (d : Draw) (citedText : string)
    (source : CitationSource) : M addr :=
  let id := createId d in
  sendUpdate (citationBlock_create id citedText source) ;;;
  citationBlockController <- new (λ _,
    PredictionProcessCitationBlockController id) ;;
  push_stepController citationBlockController ;;;
  ret citationBlockController.

Definition createDebugInfoBlock (d : Draw) (debugInfo : string) : M addr :=
  let id := createId d in
  sendUpdate (debugInfoBlock_create id debugInfo) ;;;
  debugInfoBlockController <- new (λ _,
    PredictionProcessDebugInfoBlockController id) ;;
  push_stepController debugInfoBlockController ;;;
  ret debugInfoBlockController.

(** *** What a preprocessor can do with a controller

    The calls a preprocessing stage can make, on the controller or on a
    status step it got back from it.  State objects are the caller's: it
    builds them and may write into them. *)
Inductive Call :=
| NewState (s : StatusStepState)
| WriteState (state : sref) (s : StatusStepState)
| SendUpdate (update : PromptPreprocessorUpdate)
| End
| CreateStatus (d : Draw) (initialState : sref)
| CreateCitationBlock (d : Draw) (citedText : string)
    (source : CitationSource)
| CreateDebugInfoBlock (d : Draw) (debugInfo : string)
| SetText (this : addr) (text : string)
| SetState (this : addr) (state : sref)
| AddSubStatus (this : addr) (d : Draw) (initialState : sref).

Definition void {A} (m : M A) : M unit := _ <- m ;; ret tt.

Definition run (c : Call) : M unit :=
  match c with
  | NewState s => void (newState s)
  | WriteState state s => storeState state s
  | SendUpdate update => sendUpdate update
  | End => end_
  | CreateStatus d initialState => void (createStatus d initialState)
  | CreateCitationBlock d citedText source =>
      void (createCitationBlock d citedText source)
  | CreateDebugInfoBlock d debugInfo =>
      void (createDebugInfoBlock d debugInfo)
  | SetText this text => setText this text
  | SetState this state => setState this state
  | AddSubStatus this d initialState =>
      void (addSubStatus this d initialState)
  end.

(** A state argument is an object the caller holds, so one that exists. *)
Definition possible (c : Call) (w : World) : bool :=
  match c with
  | CreateStatus _ state | SetState _ state | AddSubStatus _ _ state =>
      bool_decide (state < length (states w))
  | _ => true
  end.

(** The world after a call, whether it returned or threw. *)
Definition after (c : Call) (w : World) : World :=
  if possible c w then (run c w).2 else w.

Definition exec_from (w : World) (calls : list Call) : World :=
  foldl (λ w c, after c w) w calls.

Definition exec (calls : list Call) : World := exec_from initial calls.

(** The draws of the step-creating calls, in call order. *)
Definition draws (calls : list Call) : list Draw :=
  omap (λ c, match c with
             | CreateStatus d _ | CreateCitationBlock d _ _
             | CreateDebugInfoBlock d _ | AddSubStatus _ d _ => Some d
             | _ => None
             end) calls.

(** Reading a status step: its state object. *)
Definition stateOf (w : World) (a : addr) : option StatusStepState :=
  match objects w !! a with
  | Some (PredictionProcessStatusController _ _ _ lastState) =>
      states w !! lastState
  | _ => None
  end.

Definition loading (t : string) : StatusStepState :=
  {| status := "loading"; text := t |}.
Definition d1 : Draw := {| now := 1700000000000; random := "0.25" |}.
Definition d2 : Draw := {| now := 1700000000000; random := "0.75" |}.
Definition d3 : Draw := {| now := 1700000000001; random := "0.5" |}.

Example createId_d1 : createId d1 = "1700000000000-0.25".
Proof. reflexivity. Qed.

Example sub_status_after_last :
  handled (exec [NewState (loading "a"); CreateStatus d1 0;
                 AddSubStatus 0 d2 0; AddSubStatus 1 d3 0;
                 AddSubStatus 0 d1 0])
  = [status_create "1700000000000-0.25" 0 None None;
     status_create "1700000000000-0.75" 0
       (Some (afterId "1700000000000-0.25")) (Some 1);
     status_create "1700000000001-0.5" 0
       (Some (afterId "1700000000000-0.75")) (Some 2);
     status_create "1700000000000-0.25" 0
       (Some (afterId "1700000000001-0.5")) (Some 1)].
Proof. vm_compute. reflexivity. Qed.

(** *** Shape of the worlds a preprocessor can produce *)

Definition is_status (o : PredictionStepController) : Prop :=
  match o with
  | PredictionProcessStatusController _ _ _ _ => True
  | _ => False
  end.

(** Every reference leads somewhere; a registered controller is registered
    once; [lastSubStatus] is the step itself or a status step made later. *)
Record wf (w : World) : Prop := mkWf {
  wf_registered :
    ∀ a, a ∈ stepControllers w → a < length (objects w);
  wf_nodup : NoDup (stepControllers w);
  wf_lastState :
    ∀ (a : addr) id ind sub ls,
      objects w !! a = Some (PredictionProcessStatusController id ind sub ls) →
      ls < length (states w);
  wf_lastSub :
    ∀ (a : addr) id ind (sub : addr) ls,
      objects w !! a = Some (PredictionProcessStatusController id ind sub ls) →
      a ≤ sub ∧ ∃ o, objects w !! sub = Some o ∧ is_status o;
}.

(** The walk of [getNestedLastSubStatusBlockId], as a relation: from [a]
    along [lastSubStatus] to the step [e] that is its own [lastSubStatus]. *)
Inductive chain_end (objs : list PredictionStepController)
    : addr → addr → Prop :=
| chain_stop a id ind ls :
    objs !! a = Some (PredictionProcessStatusController id ind a ls) →
    chain_end objs a a
| chain_next a id ind sub ls e :
    objs !! a = Some (PredictionProcessStatusController id ind sub ls) →
    a ≠ sub →
    chain_end objs sub e →
    chain_end objs a e.

Ltac unfold_methods :=
  unfold void, sendUpdate, hasEnded, handleUpdate, store, storeState, new,
    newState, deref, readState, push_stepController, bind, ret, throw,
    diverge, get, modify in *.

Lemma wf_initial : wf initial.
Proof.
  split; simpl.
  - intros a Ha. by apply elem_of_nil in Ha.
  - constructor.
  - intros a id ind sub ls Ha. by rewrite lookup_nil in Ha.
  - intros a id ind sub ls Ha. by rewrite lookup_nil in Ha.
Qed.

Lemma wf_set_handled l w : wf w → wf (set_handled l w).
Proof. intros [H1 H2 H3 H4]. by split. Qed.

Lemma wf_set_endedFlag b w : wf w → wf (set_endedFlag b w).
Proof. intros [H1 H2 H3 H4]. by split. Qed.

(** Growing or rewriting the state store keeps every reference valid. *)
Lemma wf_set_states l w :
  length (states w) ≤ length l → wf w → wf (set_states l w).
Proof.
  intros Hlen [H1 H2 H3 H4]. split; simpl; try done.
  intros a id ind sub ls Ha. specialize (H3 _ _ _ _ _ Ha). lia.
Qed.

Lemma wf_new_leaf o w :
  ¬ is_status o → wf w → wf (set_objects (objects w ++ [o]) w).
Proof.
  intros Ho [H1 H2 H3 H4]. split; simpl; try done.
  - intros a Ha. rewrite length_app. specialize (H1 _ Ha). lia.
  - intros a id ind sub ls Ha.
    apply lookup_app_Some in Ha as [Ha|[_ Ha]]; [by eapply H3|].
    apply list_lookup_singleton_Some in Ha as [_ ->]. by destruct Ho.
  - intros a id ind sub ls Ha.
    apply lookup_app_Some in Ha as [Ha|[_ Ha]].
    + destruct (H4 _ _ _ _ _ Ha) as (? & o' & Ho' & ?).
      split; [done|]. exists o'. split; [|done]. by apply lookup_app_l_Some.
    + apply list_lookup_singleton_Some in Ha as [_ ->]. by destruct Ho.
Qed.

Lemma wf_new_status id ind ls w :
  ls < length (states w) → wf w →
  wf (set_objects
        (objects w ++
           [PredictionProcessStatusController id ind (length (objects w)) ls])
        w).
Proof.
  intros Hls [H1 H2 H3 H4]. split; simpl; try done.
  - intros a Ha. rewrite length_app. specialize (H1 _ Ha). lia.
  - intros a id' ind' sub' ls' Ha.
    apply lookup_app_Some in Ha as [Ha|[_ Ha]]; [by eapply H3|].
    apply list_lookup_singleton_Some in Ha as [_ Ha]. by simplify_eq.
  - intros a id' ind' sub' ls' Ha.
    apply lookup_app_Some in Ha as [Ha|[Hge Ha]].
    + destruct (H4 _ _ _ _ _ Ha) as (? & o' & Ho' & ?).
      split; [done|]. exists o'. split; [|done]. by apply lookup_app_l_Some.
    + apply list_lookup_singleton_Some in Ha as [Hz Ha]. simplify_eq.
      assert (a = length (objects w)) as -> by lia.
      split; [done|]. eexists. split.
      { rewrite lookup_app_r by done. by rewrite Nat.sub_diag. }
      exact I.
Qed.

Lemma wf_push a w :
  a < length (objects w) → a ∉ stepControllers w → wf w →
  wf (set_stepControllers (stepControllers w ++ [a]) w).
Proof.
  intros Ha Hfresh [H1 H2 H3 H4]. split; simpl; try done.
  - intros b [Hb|Hb]%elem_of_app; [by apply H1|].
    apply list_elem_of_singleton in Hb. by subst.
  - apply NoDup_app. split; [done|]. split; [|apply NoDup_singleton].
    intros b Hb Hb'. apply list_elem_of_singleton in Hb'. by subst.
Qed.

(** Overwriting a status step, keeping its [lastSubStatus] in order. *)
Lemma wf_store a id ind sub ls id' ind' sub' ls' w :
  objects w !! a = Some (PredictionProcessStatusController id ind sub ls) →
  ls' < length (states w) →
  a ≤ sub' →
  (∃ o, objects w !! sub' = Some o ∧ is_status o) →
  wf w →
  wf (set_objects
        (<[a := PredictionProcessStatusController id' ind' sub' ls']>
           (objects w)) w).
Proof.
  intros Ha Hls Hle (o & Ho & Hst) [H1 H2 H3 H4].
  assert (a < length (objects w)) as Hlt by by eapply lookup_lt_Some.
  assert (∀ b o1, objects w !! b = Some o1 → is_status o1 →
    ∃ o2, <[a := PredictionProcessStatusController id' ind' sub' ls']>
            (objects w) !! b = Some o2 ∧ is_status o2) as Hkeep.
  { intros b o1 Hb Ho1. destruct (decide (a = b)) as [->|Hne].
    - eexists. rewrite list_lookup_insert_eq by done. by split.
    - exists o1. by rewrite list_lookup_insert_ne. }
  split; simpl; try done.
  - intros b Hb. rewrite length_insert. by apply H1.
  - intros b id1 ind1 sub1 ls1 Hb. destruct (decide (a = b)) as [->|Hne].
    + rewrite list_lookup_insert_eq in Hb by done. by simplify_eq.
    + rewrite list_lookup_insert_ne in Hb by done. by eapply H3.
  - intros b id1 ind1 sub1 ls1 Hb. destruct (decide (a = b)) as [->|Hne].
    + rewrite list_lookup_insert_eq in Hb by done. simplify_eq.
      split; [done|]. by eapply Hkeep.
    + rewrite list_lookup_insert_ne in Hb by done.
      destruct (H4 _ _ _ _ _ Hb) as (? & o1 & Ho1 & ?).
      split; [done|]. by eapply Hkeep.
Qed.

(** *** The methods, call by call *)

Definition ended_error : JSError := Error "Prediction process has ended.".

Lemma sendUpdate_eq update w :
  sendUpdate update w =
    if endedFlag w then (Throw ended_error, w)
    else (Normal tt, set_handled (handled w ++ [update]) w).
Proof. unfold_methods. by destruct (endedFlag w). Qed.

Lemma setState_eq this state id ind sub ls w :
  objects w !! this = Some (PredictionProcessStatusController id ind sub ls) →
  setState this state w =
    sendUpdate (status_update id state)
      (set_objects
         (<[this := PredictionProcessStatusController id ind sub state]>
            (objects w)) w).
Proof. intros Hthis. unfold setState, deref, store, modify, bind. by rewrite Hthis. Qed.

Lemma setText_eq this t id ind sub ls s w :
  objects w !! this = Some (PredictionProcessStatusController id ind sub ls) →
  states w !! ls = Some s →
  setText this t w =
    sendUpdate (status_update id ls)
      (set_states (<[ls := {| status := status s; text := t |}]> (states w))
         w).
Proof.
  intros Hthis Hls.
  unfold setText, deref, readState, storeState, modify, bind.
  by rewrite Hthis, Hls.
Qed.

Lemma ensureEnded_eq this id ind sub ls s w :
  objects w !! this = Some (PredictionProcessStatusController id ind sub ls) →
  states w !! ls = Some s →
  ensureEnded this w =
    if includes ["loading"; "waiting"] (status s) then
      setState this (length (states w))
        (set_states
           (states w ++ [{| status := "canceled"; text := text s |}]) w)
    else (Normal tt, w).
Proof.
  intros Hthis Hls.
  unfold ensureEnded, deref, readState, newState, bind, ret.
  rewrite Hthis, Hls. by destruct (includes _ _).
Qed.

Lemma ensureEnded_leaf this o w :
  objects w !! this = Some o → ¬ is_status o →
  ensureEnded this w = (Normal tt, w).
Proof.
  intros Hthis Ho. unfold ensureEnded, deref, bind, ret. rewrite Hthis.
  destruct o; [by destruct Ho|done..].
Qed.

(** In a well-formed store the walk ends, at the end of the chain. *)
Lemma walk_chain_end objs :
  (∀ (a : addr) id ind (sub : addr) ls,
     objs !! a = Some (PredictionProcessStatusController id ind sub ls) →
     a ≤ sub ∧ ∃ o, objs !! sub = Some o ∧ is_status o) →
  ∀ n (current : addr) o,
    objs !! current = Some o → is_status o →
    length objs ≤ n + current + 1 →
    ∃ e oe, chain_end objs current e ∧ objs !! e = Some oe ∧
            walk n objs current = Some (Normal (stepId oe)).
Proof.
  intros Hwf n. induction n as [|n IH]; intros current o Hcur Ho Hn.
  - destruct o as [id ind sub ls| |]; try done.
    destruct (Hwf _ _ _ _ _ Hcur) as (Hle & o' & Ho' & _).
    apply lookup_lt_Some in Ho'.
    assert (current = sub) as <- by lia.
    exists current, (PredictionProcessStatusController id ind current ls).
    split; [by econstructor|]. split; [done|].
    simpl. rewrite Hcur. by rewrite decide_True.
  - destruct o as [id ind sub ls| |]; try done.
    destruct (Hwf _ _ _ _ _ Hcur) as (Hle & o' & Ho' & Hst).
    destruct (decide (current = sub)) as [<-|Hne].
    + exists current, (PredictionProcessStatusController id ind current ls).
      split; [by econstructor|]. split; [done|].
      simpl. rewrite Hcur. by rewrite decide_True.
    + destruct (IH sub o' Ho' Hst) as (e & oe & Hch & He & Hw); [lia|].
      exists e, oe. split; [by econstructor|]. split; [done|].
      simpl. rewrite Hcur. by rewrite decide_False.
Qed.

Lemma addSubStatus_eq this d initialState id ind sub ls after w :
  objects w !! this = Some (PredictionProcessStatusController id ind sub ls) →
  walk (length (objects w)) (objects w) sub = Some (Normal after) →
  endedFlag w = false →
  addSubStatus this d initialState w =
    (Normal (length (objects w)),
     set_objects
       (<[this := PredictionProcessStatusController id ind
                    (length (objects w)) ls]>
          (objects w ++
             [PredictionProcessStatusController (createId d) (ind + 1)
                (length (objects w)) initialState]))
       (set_handled
          (handled w ++
             [status_create (createId d) initialState (Some (afterId after))
                (Some (ind + 1))]) w)).
Proof.
  intros Hthis Hwalk Hflag.
  unfold addSubStatus, getNestedLastSubStatusBlockId.
  unfold_methods. rewrite Hthis. simpl. rewrite Hthis, Hwalk. simpl.
  rewrite Hflag. simpl.
  by rewrite (lookup_app_l_Some _ _ _ _ Hthis).
Qed.

(** Apart from that, [addSubStatus] changes nothing. *)
Lemma addSubStatus_cases this d initialState w :
  (addSubStatus this d initialState w).2 = w ∨
  ∃ id ind sub ls after,
    objects w !! this = Some (PredictionProcessStatusController id ind sub ls)
    ∧ walk (length (objects w)) (objects w) sub = Some (Normal after)
    ∧ endedFlag w = false.
Proof.
  destruct (objects w !! this) as [[id ind sub ls| |]|] eqn:Hthis;
    try (left; unfold addSubStatus, deref, bind, throw; by rewrite Hthis).
  destruct (walk (length (objects w)) (objects w) sub) as [[after|e|]|]
    eqn:Hwalk;
    try (left; unfold addSubStatus, getNestedLastSubStatusBlockId;
         unfold_methods; rewrite Hthis; simpl; by rewrite Hthis, Hwalk).
  destruct (endedFlag w) eqn:Hflag; [|right; by eauto 10].
  left. unfold addSubStatus, getNestedLastSubStatusBlockId.
  unfold_methods. rewrite Hthis. simpl. rewrite Hthis, Hwalk. simpl.
  by rewrite Hflag.
Qed.

(** *** Every call keeps the world well-formed *)

Lemma sendUpdate_wf update w : wf w → wf (sendUpdate update w).2.
Proof.
  intros Hwf. rewrite sendUpdate_eq.
  destruct (endedFlag w); simpl; [done|by apply wf_set_handled].
Qed.

Lemma setState_wf this state w :
  state < length (states w) → wf w → wf (setState this state w).2.
Proof.
  intros Hstate Hwf.
  destruct (objects w !! this) as [[id ind sub ls| |]|] eqn:Hthis;
    try (unfold setState, deref, bind, throw; by rewrite Hthis).
  rewrite (setState_eq _ _ _ _ _ _ _ Hthis). apply sendUpdate_wf.
  destruct (wf_lastSub _ Hwf _ _ _ _ _ Hthis) as [Hle Hsub].
  by eapply wf_store.
Qed.

Lemma setText_wf this t w : wf w → wf (setText this t w).2.
Proof.
  intros Hwf.
  destruct (objects w !! this) as [[id ind sub ls| |]|] eqn:Hthis;
    try (unfold setText, deref, bind, throw; by rewrite Hthis).
  destruct (states w !! ls) as [s|] eqn:Hls.
  - rewrite (setText_eq _ _ _ _ _ _ _ _ Hthis Hls). apply sendUpdate_wf.
    apply wf_set_states; [|done]. by rewrite length_insert.
  - unfold setText, deref, readState, bind. by rewrite Hthis, Hls.
Qed.

Lemma ensureEnded_wf this w : wf w → wf (ensureEnded this w).2.
Proof.
  intros Hwf.
  destruct (objects w !! this) as [[id ind sub ls| |]|] eqn:Hthis;
    try (unfold ensureEnded, deref, bind, ret; by rewrite Hthis).
  destruct (states w !! ls) as [s|] eqn:Hls.
  - rewrite (ensureEnded_eq _ _ _ _ _ _ _ Hthis Hls).
    destruct (includes _ _); [|done].
    apply setState_wf; simpl.
    + rewrite length_app. simpl. lia.
    + apply wf_set_states; [|done]. rewrite length_app. lia.
  - unfold ensureEnded, deref, readState, bind. by rewrite Hthis, Hls.
Qed.

(** A property kept by the body is kept by the loop. *)
Lemma forOf_preserves {A} (I : World → Prop) (body : A → M unit) xs :
  (∀ x w, I w → I (body x w).2) →
  ∀ w, I w → I (forOf xs body w).2.
Proof.
  intros Hbody. induction xs as [|x xs IH]; intros w Hw; simpl; [done|].
  unfold bind. specialize (Hbody x w Hw).
  destruct (body x w) as [[[]|e|] w']; simpl in *; auto.
Qed.

Lemma end_wf w : wf w → wf (end_ w).2.
Proof.
  intros Hwf. unfold end_, get, modify, bind.
  pose proof (forOf_preserves wf ensureEnded (stepControllers w)
                ensureEnded_wf w Hwf) as Hloop.
  destruct (forOf _ _ w) as [[[]|e|] w']; simpl in *; try done.
  by apply wf_set_endedFlag.
Qed.

Lemma length_not_registered w :
  wf w → length (objects w) ∉ stepControllers w.
Proof. intros Hwf Hin. apply (wf_registered _ Hwf) in Hin. lia. Qed.

Lemma createStatus_eq d initialState w :
  createStatus d initialState w =
    if endedFlag w then (Throw ended_error, w)
    else (Normal (length (objects w)),
          set_stepControllers (stepControllers w ++ [length (objects w)])
            (set_objects
               (objects w ++
                  [PredictionProcessStatusController (createId d) 0
                     (length (objects w)) initialState])
               (set_handled
                  (handled w ++
                     [status_create (createId d) initialState None None])
                  w))).
Proof. unfold createStatus. unfold_methods. by destruct (endedFlag w). Qed.

Lemma createCitationBlock_eq d citedText source w :
  createCitationBlock d citedText source w =
    if endedFlag w then (Throw ended_error, w)
    else (Normal (length (objects w)),
          set_stepControllers (stepControllers w ++ [length (objects w)])
            (set_objects
               (objects w ++
                  [PredictionProcessCitationBlockController (createId d)])
               (set_handled
                  (handled w ++
                     [citationBlock_create (createId d) citedText source])
                  w))).
Proof.
  unfold createCitationBlock. unfold_methods. by destruct (endedFlag w).
Qed.

Lemma createDebugInfoBlock_eq d debugInfo w :
  createDebugInfoBlock d debugInfo w =
    if endedFlag w then (Throw ended_error, w)
    else (Normal (length (objects w)),
          set_stepControllers (stepControllers w ++ [length (objects w)])
            (set_objects
               (objects w ++
                  [PredictionProcessDebugInfoBlockController (createId d)])
               (set_handled
                  (handled w ++ [debugInfoBlock_create (createId d) debugInfo])
                  w))).
Proof.
  unfold createDebugInfoBlock. unfold_methods. by destruct (endedFlag w).
Qed.

Lemma createStatus_wf d initialState w :
  initialState < length (states w) → wf w →
  wf (createStatus d initialState w).2.
Proof.
  intros Hstate Hwf. rewrite createStatus_eq.
  destruct (endedFlag w); cbn [snd]; [done|].
  apply (wf_push _ (set_objects _ (set_handled _ w))).
  - cbn. rewrite length_app. cbn. lia.
  - by apply (length_not_registered w).
  - apply (wf_new_status _ _ _ (set_handled _ w)); [done|].
    by apply wf_set_handled.
Qed.

Lemma createCitationBlock_wf d citedText source w :
  wf w → wf (createCitationBlock d citedText source w).2.
Proof.
  intros Hwf. rewrite createCitationBlock_eq.
  destruct (endedFlag w); cbn [snd]; [done|].
  apply (wf_push _ (set_objects _ (set_handled _ w))).
  - cbn. rewrite length_app. cbn. lia.
  - by apply (length_not_registered w).
  - apply (wf_new_leaf _ (set_handled _ w)); [by intros []|].
    by apply wf_set_handled.
Qed.

Lemma createDebugInfoBlock_wf d debugInfo w :
  wf w → wf (createDebugInfoBlock d debugInfo w).2.
Proof.
  intros Hwf. rewrite createDebugInfoBlock_eq.
  destruct (endedFlag w); cbn [snd]; [done|].
  apply (wf_push _ (set_objects _ (set_handled _ w))).
  - cbn. rewrite length_app. cbn. lia.
  - by apply (length_not_registered w).
  - apply (wf_new_leaf _ (set_handled _ w)); [by intros []|].
    by apply wf_set_handled.
Qed.

Lemma addSubStatus_wf this d initialState w :
  initialState < length (states w) → wf w →
  wf (addSubStatus this d initialState w).2.
Proof.
  intros Hstate Hwf.
  destruct (addSubStatus_cases this d initialState w)
    as [->|(id & ind & sub & ls & after & Hthis & Hwalk & Hflag)]; [done|].
  rewrite (addSubStatus_eq _ _ _ _ _ _ _ _ _ Hthis Hwalk Hflag). cbn [snd].
  set (w1 := set_handled _ w).
  set (child := PredictionProcessStatusController (createId d) (ind + 1)
                  (length (objects w)) initialState).
  pose proof (lookup_lt_Some _ _ _ Hthis) as Hlt.
  assert (wf (set_objects (objects w ++ [child]) w1)) as Hwf2.
  { apply (wf_new_status _ _ _ w1); [done|by apply wf_set_handled]. }
  apply (wf_store this id ind sub ls id ind (length (objects w)) ls
           (set_objects (objects w ++ [child]) w1)).
  - cbn. by apply lookup_app_l_Some.
  - cbn. by apply (wf_lastState _ Hwf _ _ _ _ _ Hthis).
  - lia.
  - exists child. split; [|exact I].
    cbn. rewrite lookup_app_r by done. by rewrite Nat.sub_diag.
  - done.
Qed.

Lemma run_wf c w : possible c w = true → wf w → wf (run c w).2.
Proof.
  intros Hpos Hwf. destruct c; simpl in *;
    try apply bool_decide_eq_true in Hpos.
  - unfold void, newState, bind, ret. simpl.
    apply wf_set_states; [|done]. rewrite length_app. lia.
  - unfold storeState, modify. simpl.
    apply wf_set_states; [|done]. by rewrite length_insert.
  - by apply sendUpdate_wf.
  - by apply end_wf.
  - pose proof (createStatus_wf d initialState w Hpos Hwf) as H.
    unfold void, bind, ret.
    by destruct (createStatus d initialState w) as [[?|?|] ?].
  - pose proof (createCitationBlock_wf d citedText source w Hwf) as H.
    unfold void, bind, ret.
    by destruct (createCitationBlock d citedText source w) as [[?|?|] ?].
  - pose proof (createDebugInfoBlock_wf d debugInfo w Hwf) as H.
    unfold void, bind, ret.
    by destruct (createDebugInfoBlock d debugInfo w) as [[?|?|] ?].
  - by apply setText_wf.
  - by apply setState_wf.
  - pose proof (addSubStatus_wf this d initialState w Hpos Hwf) as H.
    unfold void, bind, ret.
    by destruct (addSubStatus this d initialState w) as [[?|?|] ?].
Qed.

Lemma after_wf c w : wf w → wf (after c w).
Proof.
  intros Hwf. unfold after.
  destruct (possible c w) eqn:Hpos; [by apply run_wf|done].
Qed.

Lemma exec_from_wf calls : ∀ w, wf w → wf (exec_from w calls).
Proof.
  induction calls as [|c calls IH]; intros w Hwf; simpl; [done|].
  apply IH. by apply after_wf.
Qed.

Lemma exec_wf calls : wf (exec calls).
Proof. apply exec_from_wf, wf_initial. Qed.

(** *** The ended flag *)

Lemma lookup_registered a w :
  wf w → a ∈ stepControllers w → ∃ o, objects w !! a = Some o.
Proof.
  intros Hwf Ha. apply (wf_registered _ Hwf) in Ha.
  by apply lookup_lt_is_Some in Ha.
Qed.

Lemma lookup_lastState a id ind sub ls w :
  wf w →
  objects w !! a = Some (PredictionProcessStatusController id ind sub ls) →
  ∃ s, states w !! ls = Some s.
Proof.
  intros Hwf Ha. apply (wf_lastState _ Hwf) in Ha.
  by apply lookup_lt_is_Some in Ha.
Qed.

(** [ensureEnded] on a step that exists returns, unless the controller has
    ended already: then the [setState] it makes throws. *)
Lemma ensureEnded_outcome a o w :
  wf w → objects w !! a = Some o →
  ∃ c w', ensureEnded a w = (c, w') ∧
    endedFlag w' = endedFlag w ∧
    length (objects w') = length (objects w) ∧
    (c = Normal tt ∨ c = Throw ended_error ∧ endedFlag w = true).
Proof.
  intros Hwf Ha. destruct o as [id ind sub ls|id|id].
  - destruct (lookup_lastState _ _ _ _ _ _ Hwf Ha) as [s Hs].
    rewrite (ensureEnded_eq _ _ _ _ _ _ _ Ha Hs).
    destruct (includes _ _); [|by eauto 10].
    erewrite setState_eq by exact Ha. rewrite sendUpdate_eq. cbn.
    destruct (endedFlag w) eqn:Hflag; do 2 eexists;
      (split; [done|]); cbn; rewrite length_insert; eauto.
  - rewrite (ensureEnded_leaf _ _ _ Ha); [by eauto 10|by intros []].
  - rewrite (ensureEnded_leaf _ _ _ Ha); [by eauto 10|by intros []].
Qed.

Lemma ensureEnded_loop_outcome l : ∀ w,
  wf w → (∀ a, a ∈ l → a < length (objects w)) →
  ∃ c w', forOf l ensureEnded w = (c, w') ∧
    endedFlag w' = endedFlag w ∧
    (c = Normal tt ∨ c = Throw ended_error ∧ endedFlag w = true).
Proof.
  induction l as [|a l IH]; intros w Hwf Hl; simpl.
  { unfold ret. by eauto 10. }
  assert (a < length (objects w)) as Ha by (apply Hl; by left).
  apply lookup_lt_is_Some in Ha as [o Ha].
  destruct (ensureEnded_outcome _ _ _ Hwf Ha)
    as (c & w1 & Heq & Hflag & Hlen & Hc).
  pose proof (ensureEnded_wf a w Hwf) as Hwf1.
  unfold bind. rewrite Heq in *. simpl in Hwf1.
  destruct Hc as [->|[-> Hended]]; [|by eauto 10].
  destruct (IH w1 Hwf1) as (c & w' & Heq' & Hflag' & Hc).
  { intros b Hb. rewrite Hlen. apply Hl. by right. }
  exists c, w'. rewrite <-Hflag. split; [done|]. split; [congruence|done].
Qed.

(** However [end] finishes, the controller is ended afterwards. *)
Lemma end_sets_flag w : wf w → endedFlag (end_ w).2 = true.
Proof.
  intros Hwf. unfold end_, get, modify, bind.
  destruct (ensureEnded_loop_outcome (stepControllers w) w Hwf)
    as (c & w' & Heq & Hflag & Hc); [by apply wf_registered|].
  rewrite Heq. destruct Hc as [->|[-> Hended]]; simpl; congruence.
Qed.

(** No call brings an ended controller back. *)
Lemma run_keeps_ended c w :
  endedFlag w = true → endedFlag (run c w).2 = true.
Proof.
  intros Hended. destruct c; simpl.
  - done.
  - done.
  - rewrite sendUpdate_eq. by rewrite Hended.
  - unfold end_, get, modify, bind.
    assert (endedFlag (forOf (stepControllers w) ensureEnded w).2 = true)
      as Hloop.
    { apply (forOf_preserves (λ w, endedFlag w = true)); [|done].
      clear. intros a w Hended.
      destruct (objects w !! a) as [[id ind sub ls| |]|] eqn:Ha;
        try (unfold ensureEnded, deref, bind, ret; by rewrite Ha).
      destruct (states w !! ls) as [s|] eqn:Hs.
      - rewrite (ensureEnded_eq _ _ _ _ _ _ _ Ha Hs).
        destruct (includes _ _); [|done].
        erewrite setState_eq by exact Ha. rewrite sendUpdate_eq. cbn.
        by rewrite Hended.
      - unfold ensureEnded, deref, readState, bind. by rewrite Ha, Hs. }
    by destruct (forOf _ _ w) as [[[]|e|] w'].
  - unfold void, bind. rewrite createStatus_eq. by rewrite Hended.
  - unfold void, bind. rewrite createCitationBlock_eq. by rewrite Hended.
  - unfold void, bind. rewrite createDebugInfoBlock_eq. by rewrite Hended.
  - destruct (objects w !! this) as [[id ind sub ls| |]|] eqn:Ha;
      try (unfold setText, deref, bind, throw; by rewrite Ha).
    destruct (states w !! ls) as [s|] eqn:Hs.
    + rewrite (setText_eq _ _ _ _ _ _ _ _ Ha Hs), sendUpdate_eq. cbn.
      by rewrite Hended.
    + unfold setText, deref, readState, bind. by rewrite Ha, Hs.
  - destruct (objects w !! this) as [[id ind sub ls| |]|] eqn:Ha;
      try (unfold setState, deref, bind, throw; by rewrite Ha).
    rewrite (setState_eq _ _ _ _ _ _ _ Ha), sendUpdate_eq. cbn.
    by rewrite Hended.
  - unfold void, bind.
    destruct (addSubStatus_cases this d initialState w)
      as [Hsame|(id & ind & sub & ls & after & _ & _ & Hflag)];
      [|congruence].
    destruct (addSubStatus this d initialState w) as [[?|?|] w']; simpl in *;
      by subst.
Qed.

Lemma exec_from_keeps_ended calls : ∀ w,
  endedFlag w = true → endedFlag (exec_from w calls) = true.
Proof.
  induction calls as [|c calls IH]; intros w Hended; simpl; [done|].
  apply IH. unfold after.
  destruct (possible c w); [by apply run_keeps_ended|done].
Qed.

Lemma exec_app calls1 calls2 :
  exec (calls1 ++ calls2) = exec_from (exec calls1) calls2.
Proof. unfold exec, exec_from. by rewrite foldl_app. Qed.

(** **** C4
    Once [end()] has been called on a controller, whatever is done with it
    afterwards, [sendUpdate] throws the error "Prediction process has
    ended." and leaves everything as it was: nothing reaches the
    coprocessor. *)
Theorem sendUpdate_after_end_throws (before later : list Call)
    (update : PromptPreprocessorUpdate) :
  let w := exec (before ++ End :: later) in
  sendUpdate update w = (Throw (Error "Prediction process has ended."), w).
Proof.
  intros w. rewrite sendUpdate_eq.
  assert (endedFlag w = true) as ->; [|done].
  subst w. rewrite exec_app. simpl. apply exec_from_keeps_ended.
  unfold after. simpl. apply end_sets_flag, exec_wf.
Qed.

(** **** C10
    On a status step whose controller has ended, [setState(state)] throws
    "Prediction process has ended." and hands nothing to the coprocessor,
    yet the step's recorded state is [state] afterwards; [setText(t)]
    throws in the same way, and the text of the recorded state object is
    [t] afterwards. *)
Theorem setState_setText_write_before_throw (calls : list Call)
    (this : addr) (id : string) (ind : nat) (sub : addr) (ls : sref) :
  let w := exec calls in
  endedFlag w = true →
  objects w !! this = Some (PredictionProcessStatusController id ind sub ls) →
  (∀ state, ∃ w',
     setState this state w
       = (Throw (Error "Prediction process has ended."), w') ∧
     handled w' = handled w ∧
     objects w' !! this
       = Some (PredictionProcessStatusController id ind sub state)) ∧
  (∀ t, ∃ w' s,
     setText this t w
       = (Throw (Error "Prediction process has ended."), w') ∧
     handled w' = handled w ∧
     states w !! ls = Some s ∧
     stateOf w' this = Some {| status := status s; text := t |}).
Proof.
  intros w Hended Hthis.
  pose proof (exec_wf calls : wf w) as Hwf.
  pose proof (lookup_lt_Some _ _ _ Hthis) as Hlt. split.
  - intros state. eexists.
    rewrite (setState_eq _ _ _ _ _ _ _ Hthis), sendUpdate_eq. cbn.
    rewrite Hended. split; [done|]. cbn. split; [done|].
    by rewrite list_lookup_insert_eq.
  - intros t. destruct (lookup_lastState _ _ _ _ _ _ Hwf Hthis) as [s Hs].
    pose proof (lookup_lt_Some _ _ _ Hs) as Hlts.
    eexists _, s.
    rewrite (setText_eq _ _ _ _ _ _ _ _ Hthis Hs), sendUpdate_eq. cbn.
    rewrite Hended. split; [done|]. cbn. split; [done|]. split; [done|].
    unfold stateOf. cbn. rewrite Hthis. by rewrite list_lookup_insert_eq.
Qed.

(** A loading step, then [end()]. *)
Definition calls_ended : list Call :=
  [NewState (loading "a"); CreateStatus d1 0; End].

Lemma setState_setText_write_before_throw_witness :
  (∀ state, ∃ w',
     setState 0 state (exec calls_ended)
       = (Throw (Error "Prediction process has ended."), w') ∧
     handled w' = handled (exec calls_ended) ∧
     objects w' !! 0
       = Some (PredictionProcessStatusController "1700000000000-0.25" 0 0
                 state)) ∧
  (∀ t, ∃ w' s,
     setText 0 t (exec calls_ended)
       = (Throw (Error "Prediction process has ended."), w') ∧
     handled w' = handled (exec calls_ended) ∧
     states (exec calls_ended) !! 1 = Some s ∧
     stateOf w' 0 = Some {| status := status s; text := t |}).
Proof.
  apply (setState_setText_write_before_throw calls_ended 0
           "1700000000000-0.25" 0 0 1); reflexivity.
Defined.

(** *** Forced termination on a live controller *)

Definition canceled (t : string) : StatusStepState :=
  {| status := "canceled"; text := t |}.

(** What [ensureEnded] has done to the step at [a] between [w] and [w']:
    a waiting or loading status step has a new state object, canceled with
    the old text; any other step is what it was. *)
Definition force_terminated (w w' : World) (a : addr) : Prop :=
  match objects w !! a with
  | Some (PredictionProcessStatusController id ind sub ls) =>
      ∃ s, states w !! ls = Some s ∧
        if includes ["loading"; "waiting"] (status s) then
          ∃ ls', objects w' !! a
                   = Some (PredictionProcessStatusController id ind sub ls') ∧
                 states w' !! ls' = Some (canceled (text s))
        else objects w' !! a = objects w !! a ∧ states w' !! ls = Some s
  | Some o => objects w' !! a = Some o
  | None => False
  end.

Lemma ensureEnded_live a o w :
  wf w → endedFlag w = false → objects w !! a = Some o →
  ∃ w', ensureEnded a w = (Normal tt, w') ∧
    endedFlag w' = false ∧
    states w `prefix_of` states w' ∧
    length (objects w') = length (objects w) ∧
    (∀ b, b ≠ a → objects w' !! b = objects w !! b) ∧
    force_terminated w w' a.
Proof.
  intros Hwf Hflag Ha. unfold force_terminated. rewrite Ha.
  destruct o as [id ind sub ls|id|id].
  - destruct (lookup_lastState _ _ _ _ _ _ Hwf Ha) as [s Hs].
    rewrite (ensureEnded_eq _ _ _ _ _ _ _ Ha Hs).
    destruct (includes _ _) eqn:Hopen.
    + erewrite setState_eq by exact Ha. rewrite sendUpdate_eq. cbn.
      rewrite Hflag. eexists. split; [done|]. cbn.
      split; [done|]. split; [by apply prefix_app_r|].
      split; [by rewrite length_insert|].
      split; [intros b Hb; by rewrite list_lookup_insert_ne|].
      exists s. split; [done|]. rewrite Hopen. eexists. split.
      * rewrite list_lookup_insert_eq; [done|by eapply lookup_lt_Some].
      * rewrite lookup_app_r by done. by rewrite Nat.sub_diag.
    + exists w. repeat (split; [done|]). exists s. by rewrite Hopen.
  - rewrite (ensureEnded_leaf _ _ _ Ha); [|by intros []]. by exists w.
  - rewrite (ensureEnded_leaf _ _ _ Ha); [|by intros []]. by exists w.
Qed.

(** What happened at [a] stays so while [a] is left alone. *)
Lemma force_terminated_later a w w1 w' :
  force_terminated w w1 a →
  objects w' !! a = objects w1 !! a →
  states w1 `prefix_of` states w' →
  force_terminated w w' a.
Proof.
  unfold force_terminated. intros Hft Hsame Hpre.
  destruct (objects w !! a) as [[id ind sub ls|id|id]|]; try done;
    [|by rewrite Hsame..].
  destruct Hft as (s & Hs & Hft). exists s. split; [done|].
  destruct (includes _ _).
  - destruct Hft as (ls' & Ha & Hls'). exists ls'. rewrite Hsame.
    split; [done|]. by eapply prefix_lookup_Some.
  - destruct Hft as [Ha Hls]. rewrite Hsame.
    split; [done|]. by eapply prefix_lookup_Some.
Qed.

(** What happens at [a] later is what would have happened now, while [a]
    is left alone. *)
Lemma force_terminated_earlier a w w1 w' :
  wf w →
  force_terminated w1 w' a →
  objects w1 !! a = objects w !! a →
  states w `prefix_of` states w1 →
  force_terminated w w' a.
Proof.
  unfold force_terminated. intros Hwf Hft Hsame Hpre. rewrite Hsame in Hft.
  destruct (objects w !! a) as [[id ind sub ls|id|id]|] eqn:Ha; try done.
  destruct Hft as (s1 & Hs1 & Hft).
  destruct (lookup_lastState _ _ _ _ _ _ Hwf Ha) as [s Hs].
  pose proof (prefix_lookup_Some _ _ _ _ Hs Hpre) as Hs'.
  assert (s1 = s) as -> by congruence. by exists s.
Qed.

Lemma ensureEnded_loop_live l : ∀ w,
  wf w → endedFlag w = false → NoDup l →
  (∀ a, a ∈ l → a < length (objects w)) →
  ∃ w', forOf l ensureEnded w = (Normal tt, w') ∧
    endedFlag w' = false ∧
    states w `prefix_of` states w' ∧
    (∀ b, b ∉ l → objects w' !! b = objects w !! b) ∧
    (∀ a, a ∈ l → force_terminated w w' a).
Proof.
  induction l as [|a l IH]; intros w Hwf Hflag Hnd Hl; simpl.
  { exists w. unfold ret. repeat (split; [done|]).
    intros a Ha. by apply elem_of_nil in Ha. }
  apply NoDup_cons in Hnd as [Hal Hnd].
  assert (a < length (objects w)) as Ha by (apply Hl; by left).
  apply lookup_lt_is_Some in Ha as [o Ha].
  destruct (ensureEnded_live _ _ _ Hwf Hflag Ha)
    as (w1 & Heq & Hflag1 & Hpre1 & Hlen1 & Hframe1 & Hft1).
  pose proof (ensureEnded_wf a w Hwf) as Hwf1. rewrite Heq in Hwf1.
  destruct (IH w1 Hwf1 Hflag1 Hnd)
    as (w' & Heq' & Hflag' & Hpre' & Hframe' & Hft').
  { intros b Hb. rewrite Hlen1. apply Hl. by right. }
  exists w'. unfold bind. rewrite Heq. split; [done|]. split; [done|].
  split; [by etrans|]. split.
  - intros b Hb. apply not_elem_of_cons in Hb as [Hne Hb].
    rewrite Hframe' by done. by apply Hframe1.
  - intros b [->|Hb]%elem_of_cons.
    + eapply force_terminated_later; [done|by apply Hframe'|done].
    + eapply force_terminated_earlier; [done|by apply Hft'| |done].
      apply Hframe1. by intros ->.
Qed.

Definition done_ (t : string) : StatusStepState :=
  {| status := "done"; text := t |}.

(** A loading step, a finished step and a citation block. *)
Definition calls_mixed : list Call :=
  [NewState (loading "reading"); CreateStatus d1 0;
   NewState (done_ "read"); CreateStatus d2 1;
   CreateCitationBlock d3 "cited" "source"].

(** Two loading steps; the controller is ended; both steps are set back to
    loading, which throws but is recorded. *)
Definition calls_reopened : list Call :=
  [NewState (loading "a"); CreateStatus d1 0;
   NewState (loading "b"); CreateStatus d2 1;
   End;
   NewState (loading "c"); SetState 0 4;
   NewState (loading "d"); SetState 1 5].

(** A loading step with a loading sub-step, then [end()]. *)
Definition calls_sub : list Call :=
  [NewState (loading "a"); CreateStatus d1 0;
   NewState (loading "b"); AddSubStatus 0 d2 1;
   End].

(** **** C5, as amended
    On a controller that has not ended, [end()] returns and marks the
    controller ended, and for every registered step (those made by
    [createStatus], [createCitationBlock] and [createDebugInfoBlock]):
    a status step that is waiting or loading becomes canceled with the text
    it had; a status step in any other status, done included, keeps its
    state object with its content; a citation or debug info block is what
    it was. *)
Theorem end_cancels_open_steps (calls : list Call) :
  let w := exec calls in
  endedFlag w = false →
  ∃ w', end_ w = (Normal tt, w') ∧ endedFlag w' = true ∧
    ∀ a, a ∈ stepControllers w → force_terminated w w' a.
Proof.
  intros w Hflag. pose proof (exec_wf calls : wf w) as Hwf.
  destruct (ensureEnded_loop_live (stepControllers w) w Hwf Hflag)
    as (w' & Heq & Hflag' & Hpre & Hframe & Hft).
  { by apply wf_nodup. }
  { by apply wf_registered. }
  exists (set_endedFlag true w'). unfold end_, get, modify, bind.
  rewrite Heq. split; [done|]. split; [done|].
  intros a Ha. by eapply force_terminated_later; [apply Hft| |].
Qed.

Lemma end_cancels_open_steps_witness :
  ∃ w', end_ (exec calls_mixed) = (Normal tt, w') ∧ endedFlag w' = true ∧
    ∀ a, a ∈ stepControllers (exec calls_mixed) →
         force_terminated (exec calls_mixed) w' a.
Proof. apply (end_cancels_open_steps calls_mixed). reflexivity. Defined.

(** **** C5, as stated, fails
    The controller of [calls_reopened] holds two steps made by
    [createStatus], both loading.  [end()] on it throws at the first one,
    and the second one is loading afterwards, not canceled. *)
Lemma end_on_ended_controller_leaves_step_loading :
  let w := exec calls_reopened in
  stepControllers w = [0; 1] ∧
  stateOf w 0 = Some (loading "c") ∧
  stateOf w 1 = Some (loading "d") ∧
  ∃ w', end_ w = (Throw (Error "Prediction process has ended."), w') ∧
        stateOf w' 1 = Some (loading "d").
Proof. vm_compute. repeat split. eexists. split; reflexivity. Qed.

(** **** C3: the code at the failing input
    After [end()], the step made by [createStatus] is canceled and the
    controller is ended, but the sub-step made by [addSubStatus] is not
    registered with the controller: it is loading still, and the only
    update sent for the termination is the one of its parent. *)
Lemma end_skips_sub_status :
  let w := exec calls_sub in
  endedFlag w = true ∧
  stepControllers w = [0] ∧
  length (objects w) = 2 ∧
  stateOf w 0 = Some (canceled "a") ∧
  stateOf w 1 = Some (loading "b") ∧
  handled w =
    [status_create "1700000000000-0.25" 0 None None;
     status_create "1700000000000-0.75" 1
       (Some (afterId "1700000000000-0.25")) (Some 1);
     status_update "1700000000000-0.25" 2].
Proof. vm_compute. repeat split. Qed.

(** *** addSubStatus *)

Lemma walk_self n objs a id ind ls :
  objs !! a = Some (PredictionProcessStatusController id ind a ls) →
  walk n objs a = Some (Normal id).
Proof. intros Ha. destruct n; simpl; rewrite Ha; by rewrite decide_True. Qed.

(** **** C6, as amended
    On a status step of a controller that has not ended, every call of
    [addSubStatus] returns a new step and hands the coprocessor exactly one
    update, a [status.create] whose location is [{type: "afterId", id}]
    with [id] the identity of the step at the end of the [lastSubStatus]
    chain of the parent, and whose indentation is the parent's plus one;
    the new step has that indentation too.  Two calls in a row on the same
    parent place the second child after the first one. *)
Theorem addSubStatus_after_last_descendant (calls : list Call)
    (this : addr) (id : string) (ind : nat) (sub : addr) (ls : sref) :
  let w := exec calls in
  endedFlag w = false →
  objects w !! this = Some (PredictionProcessStatusController id ind sub ls) →
  (∀ d initialState, ∃ e oe w',
     chain_end (objects w) sub e ∧ objects w !! e = Some oe ∧
     addSubStatus this d initialState w = (Normal (length (objects w)), w') ∧
     handled w' =
       handled w ++
         [status_create (createId d) initialState
            (Some (afterId (stepId oe))) (Some (ind + 1))] ∧
     objects w' !! length (objects w) =
       Some (PredictionProcessStatusController (createId d) (ind + 1)
               (length (objects w)) initialState)) ∧
  (∀ da sa db sb, ∃ ca w1 cb w2 u,
     addSubStatus this da sa w = (Normal ca, w1) ∧
     handled w1 = handled w ++ [u] ∧
     addSubStatus this db sb w1 = (Normal cb, w2) ∧
     handled w2 =
       handled w1 ++
         [status_create (createId db) sb (Some (afterId (createId da)))
            (Some (ind + 1))]).
Proof.
  intros w Hflag Hthis. pose proof (exec_wf calls : wf w) as Hwf.
  pose proof (lookup_lt_Some _ _ _ Hthis) as Hlt.
  destruct (wf_lastSub _ Hwf _ _ _ _ _ Hthis) as (Hle & o & Ho & Hst).
  destruct (walk_chain_end (objects w) (wf_lastSub _ Hwf)
              (length (objects w)) sub o Ho Hst)
    as (e & oe & Hchain & He & Hwalk); [lia|].
  split.
  - intros d initialState. exists e, oe. eexists.
    split; [done|]. split; [done|].
    rewrite (addSubStatus_eq _ _ _ _ _ _ _ _ _ Hthis Hwalk Hflag).
    split; [done|]. cbn. split; [done|].
    rewrite list_lookup_insert_ne by lia.
    rewrite lookup_app_r by done. by rewrite Nat.sub_diag.
  - intros da sa db sb.
    rewrite (addSubStatus_eq _ _ _ _ _ _ _ _ _ Hthis Hwalk Hflag).
    set (w1 := set_objects _ _).
    assert (objects w1 !! this =
              Some (PredictionProcessStatusController id ind
                      (length (objects w)) ls)) as Hthis1.
    { subst w1. cbn. rewrite list_lookup_insert_eq; [done|].
      rewrite length_app. lia. }
    assert (objects w1 !! length (objects w) =
              Some (PredictionProcessStatusController (createId da)
                      (ind + 1) (length (objects w)) sa)) as Hchild.
    { subst w1. cbn. rewrite list_lookup_insert_ne by lia.
      rewrite lookup_app_r by done. by rewrite Nat.sub_diag. }
    pose proof (walk_self (length (objects w1)) _ _ _ _ _ Hchild) as Hwalk1.
    exists (length (objects w)), w1, (length (objects w1)). eexists. eexists.
    split; [done|]. split; [done|].
    rewrite (addSubStatus_eq _ _ _ _ _ _ _ _ _ Hthis1 Hwalk1 Hflag).
    by split.
Qed.

Lemma addSubStatus_after_last_descendant_witness :
  (∀ d initialState, ∃ e oe w',
     chain_end (objects (exec [NewState (loading "a"); CreateStatus d1 0]))
       0 e ∧
     objects (exec [NewState (loading "a"); CreateStatus d1 0]) !! e
       = Some oe ∧
     addSubStatus 0 d initialState
       (exec [NewState (loading "a"); CreateStatus d1 0])
       = (Normal 1, w') ∧
     handled w' =
       [status_create "1700000000000-0.25" 0 None None;
        status_create (createId d) initialState
          (Some (afterId (stepId oe))) (Some (0 + 1))] ∧
     objects w' !! 1 =
       Some (PredictionProcessStatusController (createId d) (0 + 1) 1
               initialState)) ∧
  (∀ da sa db sb, ∃ ca w1 cb w2 u,
     addSubStatus 0 da sa (exec [NewState (loading "a"); CreateStatus d1 0])
       = (Normal ca, w1) ∧
     handled w1 = [status_create "1700000000000-0.25" 0 None None] ++ [u] ∧
     addSubStatus 0 db sb w1 = (Normal cb, w2) ∧
     handled w2 =
       handled w1 ++
         [status_create (createId db) sb (Some (afterId (createId da)))
            (Some (0 + 1))]).
Proof.
  apply (addSubStatus_after_last_descendant
           [NewState (loading "a"); CreateStatus d1 0] 0
           "1700000000000-0.25" 0 0 0); reflexivity.
Defined.

(** **** C6, as stated, fails
    Once the controller has ended, [addSubStatus] on one of its steps
    throws, and no update is sent. *)
Lemma addSubStatus_on_ended_controller_sends_nothing :
  let w := exec [NewState (loading "a"); CreateStatus d1 0; End] in
  stateOf w 0 = Some (canceled "a") ∧
  addSubStatus 0 d2 0 w
    = (Throw (Error "Prediction process has ended."), w).
Proof. vm_compute. split; reflexivity. Qed.

(** *** Step identities *)

(** A string without the character [-]. *)
Fixpoint dashless (s : string) : Prop :=
  match s with
  | EmptyString => True
  | String c s' => c ≠ "-"%char ∧ dashless s'
  end.

Lemma pretty_N_char_not_dash x : pretty_N_char x ≠ "-"%char.
Proof. unfold pretty_N_char. by repeat case_match. Qed.

Lemma pretty_N_go_dashless x : ∀ s, dashless s → dashless (pretty_N_go x s).
Proof.
  induction (N.lt_wf_0 x) as [x _ IH]; intros s Hs.
  destruct (decide (x = 0)%N) as [->|Hx]; [by rewrite pretty_N_go_0|].
  rewrite pretty_N_go_step by lia. apply IH.
  - apply N.div_lt; lia.
  - split; [apply pretty_N_char_not_dash|done].
Qed.

Lemma pretty_N_dashless (x : N) : dashless (pretty x).
Proof.
  unfold pretty, pretty_N. case_decide.
  - simpl. by split.
  - by apply pretty_N_go_dashless.
Qed.

(** The first [-] of an identity ends the clock reading. *)
Lemma dashless_split s1 : ∀ s2 r1 r2,
  dashless s1 → dashless s2 →
  s1 +:+ "-" +:+ r1 = s2 +:+ "-" +:+ r2 →
  s1 = s2 ∧ r1 = r2.
Proof.
  induction s1 as [|c1 s1 IH]; intros [|c2 s2] r1 r2 H1 H2 Heq;
    simpl in *.
  - by simplify_eq.
  - destruct H2 as [Hc _]. by simplify_eq.
  - destruct H1 as [Hc _]. by simplify_eq.
  - destruct H1 as [_ H1], H2 as [_ H2]. simplify_eq.
    by destruct (IH _ _ _ H1 H2 H) as [-> ->].
Qed.

#[local] Instance createId_inj : Inj (=) (=) createId.
Proof.
  intros [n1 r1] [n2 r2]. unfold createId. simpl. intros Heq.
  apply dashless_split in Heq as [Hn ->]; [|apply pretty_N_dashless..].
  by apply (inj pretty) in Hn as ->.
Qed.

(** The identities of all step controllers made so far, oldest first. *)
Definition ids (w : World) : list string := stepId <$> objects w.

Lemma ids_store a o o' w :
  objects w !! a = Some o → stepId o' = stepId o →
  ids (set_objects (<[a := o']> (objects w)) w) = ids w.
Proof.
  intros Ha Hid. unfold ids. cbn. rewrite list_fmap_insert.
  apply list_insert_id. rewrite list_lookup_fmap, Ha. simpl. by rewrite Hid.
Qed.

Lemma ensureEnded_ids a w : ids (ensureEnded a w).2 = ids w.
Proof.
  destruct (objects w !! a) as [[id ind sub ls| |]|] eqn:Ha;
    try (unfold ensureEnded, deref, bind, ret; by rewrite Ha).
  destruct (states w !! ls) as [s|] eqn:Hs.
  - rewrite (ensureEnded_eq _ _ _ _ _ _ _ Ha Hs).
    destruct (includes _ _); [|done].
    erewrite setState_eq by exact Ha. rewrite sendUpdate_eq. cbn.
    destruct (endedFlag w); cbn [snd];
      by apply (ids_store _ _ _ (set_states _ w) Ha).
  - unfold ensureEnded, deref, readState, bind. by rewrite Ha, Hs.
Qed.

Lemma void_snd {A} (m : M A) w : (void m w).2 = (m w).2.
Proof. unfold void, bind, ret. by destruct (m w) as [[?|?|] ?]. Qed.

(** A call makes at most one step, named after its draw. *)
Lemma run_ids c w :
  ids (run c w).2 = ids w ∨
  ∃ d, draws [c] = [d] ∧ ids (run c w).2 = ids w ++ [createId d].
Proof.
  destruct c; simpl; rewrite ?void_snd.
  - by left.
  - by left.
  - left. rewrite sendUpdate_eq. by destruct (endedFlag w).
  - left. unfold end_, get, modify, bind.
    pose proof (forOf_preserves (λ w', ids w' = ids w) ensureEnded
                  (stepControllers w)) as Hloop.
    simpl in Hloop. specialize (Hloop
      (λ a w' H, eq_trans (ensureEnded_ids a w') H) w eq_refl).
    by destruct (forOf _ _ w) as [[[]|e|] w'].
  - rewrite createStatus_eq. destruct (endedFlag w); [by left|].
    right. eexists. split; [done|]. unfold ids. cbn. by rewrite fmap_app.
  - rewrite createCitationBlock_eq. destruct (endedFlag w); [by left|].
    right. eexists. split; [done|]. unfold ids. cbn. by rewrite fmap_app.
  - rewrite createDebugInfoBlock_eq. destruct (endedFlag w); [by left|].
    right. eexists. split; [done|]. unfold ids. cbn. by rewrite fmap_app.
  - left.
    destruct (objects w !! this) as [[id ind sub ls| |]|] eqn:Ha;
      try (unfold setText, deref, bind, throw; by rewrite Ha).
    destruct (states w !! ls) as [s|] eqn:Hs.
    + rewrite (setText_eq _ _ _ _ _ _ _ _ Ha Hs), sendUpdate_eq. cbn.
      by destruct (endedFlag w).
    + unfold setText, deref, readState, bind. by rewrite Ha, Hs.
  - left.
    destruct (objects w !! this) as [[id ind sub ls| |]|] eqn:Ha;
      try (unfold setState, deref, bind, throw; by rewrite Ha).
    rewrite (setState_eq _ _ _ _ _ _ _ Ha), sendUpdate_eq. cbn.
    destruct (endedFlag w); cbn [snd]; by apply (ids_store _ _ _ _ Ha).
  - destruct (addSubStatus_cases this d initialState w)
      as [->|(id & ind & sub & ls & after & Hthis & Hwalk & Hflag)];
      [by left|].
    right. eexists. split; [done|].
    rewrite (addSubStatus_eq _ _ _ _ _ _ _ _ _ Hthis Hwalk Hflag).
    cbn [snd].
    set (child := PredictionProcessStatusController (createId d) (ind + 1)
                    (length (objects w)) initialState).
    etrans.
    { apply (ids_store this
               (PredictionProcessStatusController id ind sub ls) _
               (set_objects (objects w ++ [child]) (set_handled _ w)));
        [|done].
      cbn. by apply lookup_app_l_Some. }
    unfold ids. cbn. by rewrite fmap_app.
Qed.

Lemma draws_cons c calls : draws (c :: calls) = draws [c] ++ draws calls.
Proof. unfold draws. by rewrite <-omap_app. Qed.

Lemma exec_from_ids calls : ∀ w,
  ∃ l, ids (exec_from w calls) = ids w ++ l ∧
       l `sublist_of` createId <$> draws calls.
Proof.
  induction calls as [|c calls IH]; intros w.
  { exists []. simpl. by rewrite app_nil_r. }
  change (exec_from w (c :: calls)) with (exec_from (after c w) calls).
  destruct (IH (after c w)) as (l & Heq & Hsub).
  rewrite draws_cons, fmap_app. unfold after in *.
  destruct (possible c w); [|exists l; split; [done|by apply sublist_inserts_l]].
  destruct (run_ids c w) as [Hsame|(d & Hd & Hnew)].
  - exists l. rewrite Heq, Hsame. split; [done|by apply sublist_inserts_l].
  - exists (createId d :: l). rewrite Heq, Hnew, Hd, <-app_assoc.
    split; [done|]. simpl. by apply sublist_skip.
Qed.

Definition calls_same_draw : list Call :=
  [NewState (loading "a"); CreateStatus d1 0; CreateStatus d1 0].

Definition calls_same_millisecond : list Call :=
  [NewState (loading "a"); CreateStatus d2 0; CreateStatus d1 0].

(** **** C8, as amended
    The identities of the steps a controller has made, oldest first, are
    the texts [`${Date.now()}-${Math.random()}`] of the calls that made
    them, in call order (a call on an ended controller makes no step).
    They are pairwise distinct whenever no two step-creating calls got the
    same clock reading together with the same random number. *)
Theorem step_ids_from_draws (calls : list Call) :
  ids (exec calls) `sublist_of` createId <$> draws calls ∧
  (NoDup (draws calls) → NoDup (ids (exec calls))).
Proof.
  destruct (exec_from_ids calls initial) as (l & Heq & Hsub).
  change (ids initial ++ l) with l in Heq. fold (exec calls) in Heq.
  rewrite Heq. split; [exact Hsub|]. intros Hnd.
  eapply sublist_NoDup; [|exact Hsub]. by apply (NoDup_fmap_2 createId).
Qed.

Lemma step_ids_from_draws_witness :
  ids (exec calls_same_millisecond)
    `sublist_of` createId <$> draws calls_same_millisecond ∧
  NoDup (ids (exec calls_same_millisecond)).
Proof.
  destruct (step_ids_from_draws calls_same_millisecond) as [Hsub Hnd].
  split; [exact Hsub|]. apply Hnd. vm_compute.
  apply NoDup_cons. split; [|apply NoDup_singleton].
  intros H%list_elem_of_singleton. discriminate H.
Defined.

(** **** C8, as stated, fails
    Two steps made in the same millisecond with the same random number
    have the same identity; and of two steps made in the same millisecond,
    the later one can have the smaller identity. *)
Lemma step_ids_can_repeat :
  ids (exec calls_same_draw)
    = ["1700000000000-0.25"; "1700000000000-0.25"] ∧
  ids (exec calls_same_millisecond)
    = ["1700000000000-0.75"; "1700000000000-0.25"] ∧
  String.ltb "1700000000000-0.25" "1700000000000-0.75" = true.
Proof. vm_compute. repeat split. Qed.

(** *** What the coprocessor has been handed only grows *)









(** *** An ended controller is frozen *)

(** Between [w] and [w'] the controller has stayed ended, the coprocessor
    has been handed nothing, no step has been registered and no step has
    been made. *)
Definition frozen (w w' : World) : Prop :=
  endedFlag w' = true ∧ handled w' = handled w ∧
  stepControllers w' = stepControllers w ∧ ids w' = ids w.

Lemma frozen_refl w : endedFlag w = true → frozen w w.
Proof. by intros H. Qed.

Lemma frozen_trans w1 w2 w3 : frozen w1 w2 → frozen w2 w3 → frozen w1 w3.
Proof.
  intros (? & ? & ? & ?) (? & ? & ? & ?). repeat split; congruence.
Qed.

Lemma setState_frozen this state w :
  endedFlag w = true → frozen w (setState this state w).2.
Proof.
  intros Hended.
  destruct (objects w !! this) as [[id ind sub ls| |]|] eqn:Ha;
    try (unfold setState, deref, bind, throw; by rewrite Ha).
  rewrite (setState_eq _ _ _ _ _ _ _ Ha), sendUpdate_eq. cbn.
  rewrite Hended. repeat split; try done. by apply (ids_store _ _ _ _ Ha).
Qed.

Lemma setText_frozen this t w :
  endedFlag w = true → frozen w (setText this t w).2.
Proof.
  intros Hended.
  destruct (objects w !! this) as [[id ind sub ls| |]|] eqn:Ha;
    try (unfold setText, deref, bind, throw; by rewrite Ha).
  destruct (states w !! ls) as [s|] eqn:Hs.
  - rewrite (setText_eq _ _ _ _ _ _ _ _ Ha Hs), sendUpdate_eq. cbn.
    by rewrite Hended.
  - unfold setText, deref, readState, bind. by rewrite Ha, Hs.
Qed.

Lemma ensureEnded_frozen a w :
  endedFlag w = true → frozen w (ensureEnded a w).2.
Proof.
  intros Hended.
  destruct (objects w !! a) as [[id ind sub ls| |]|] eqn:Ha;
    try (unfold ensureEnded, deref, bind, ret; by rewrite Ha).
  destruct (states w !! ls) as [s|] eqn:Hs.
  - rewrite (ensureEnded_eq _ _ _ _ _ _ _ Ha Hs).
    destruct (includes _ _); [|done].
    exact (setState_frozen _ _ (set_states _ w) Hended).
  - unfold ensureEnded, deref, readState, bind. by rewrite Ha, Hs.
Qed.

Lemma end_frozen w : endedFlag w = true → frozen w (end_ w).2.
Proof.
  intros Hended. unfold end_, get, modify, bind.
  pose proof (forOf_preserves (frozen w) ensureEnded (stepControllers w))
    as Hloop.
  specialize (Hloop
    (λ a w' H, frozen_trans _ _ _ H
                 (ensureEnded_frozen a w' (proj1 H))) w
    (frozen_refl w Hended)).
  destruct (forOf _ _ w) as [[[]|e|] w']; simpl in *; [|done..].
  destruct Hloop as (? & ? & ? & ?). by repeat split.
Qed.

Lemma addSubStatus_ended this d initialState id ind sub ls after w :
  objects w !! this = Some (PredictionProcessStatusController id ind sub ls) →
  walk (length (objects w)) (objects w) sub = Some (Normal after) →
  endedFlag w = true →
  addSubStatus this d initialState w = (Throw ended_error, w).
Proof.
  intros Hthis Hwalk Hflag.
  unfold addSubStatus, getNestedLastSubStatusBlockId.
  unfold_methods. rewrite Hthis. simpl. rewrite Hthis, Hwalk. simpl.
  by rewrite Hflag.
Qed.

Lemma run_frozen c w : endedFlag w = true → frozen w (run c w).2.
Proof.
  intros Hended. destruct c; simpl; rewrite ?void_snd.
  - done.
  - done.
  - rewrite sendUpdate_eq. by rewrite Hended.
  - by apply end_frozen.
  - rewrite createStatus_eq. by rewrite Hended.
  - rewrite createCitationBlock_eq. by rewrite Hended.
  - rewrite createDebugInfoBlock_eq. by rewrite Hended.
  - by apply setText_frozen.
  - by apply setState_frozen.
  - destruct (addSubStatus_cases this d initialState w)
      as [->|(id & ind & sub & ls & after & _ & _ & Hflag)];
      [done|congruence].
Qed.

Lemma exec_from_frozen calls : ∀ w,
  endedFlag w = true → frozen w (exec_from w calls).
Proof.
  induction calls as [|c calls IH]; intros w Hended; simpl; [done|].
  unfold after. destruct (possible c w); [|by apply IH].
  pose proof (run_frozen c w Hended) as Hc.
  eapply frozen_trans; [exact Hc|]. apply IH, Hc.
Qed.

(** **** X2
    After [end()], nothing a preprocessor does reaches the coprocessor or
    makes a step: the updates handed over, the registered steps and the
    identities of all steps made are, for good, what they were when
    [end()] was left. *)
Theorem nothing_new_after_end (before later : list Call) :
  let w := exec (before ++ [End]) in
  let w' := exec (before ++ End :: later) in
  endedFlag w' = true ∧ handled w' = handled w ∧
  stepControllers w' = stepControllers w ∧ ids w' = ids w.
Proof.
  intros w w'. subst w w'.
  replace (before ++ End :: later) with ((before ++ [End]) ++ later)
    by by rewrite <-app_assoc.
  rewrite (exec_app (before ++ [End])). apply exec_from_frozen.
  rewrite exec_app. simpl. unfold after. simpl.
  apply end_sets_flag, exec_wf.
Qed.

(** *** The walk of getNestedLastSubStatusBlockId ends *)

(** **** X3
    On every status step of every controller a preprocessor can have
    produced, ended or not, the [while] loop of
    [getNestedLastSubStatusBlockId] terminates: the call returns the
    identity of the step at the end of the [lastSubStatus] chain, it does
    not throw, and it changes nothing. *)
Theorem last_sub_status_walk_terminates (calls : list Call)
    (this : addr) (id : string) (ind : nat) (sub : addr) (ls : sref) :
  let w := exec calls in
  objects w !! this = Some (PredictionProcessStatusController id ind sub ls) →
  ∃ e oe, chain_end (objects w) sub e ∧ objects w !! e = Some oe ∧
          getNestedLastSubStatusBlockId this w = (Normal (stepId oe), w).
Proof.
  intros w Hthis. pose proof (exec_wf calls : wf w) as Hwf.
  destruct (wf_lastSub _ Hwf _ _ _ _ _ Hthis) as (Hle & o & Ho & Hst).
  destruct (walk_chain_end (objects w) (wf_lastSub _ Hwf)
              (length (objects w)) sub o Ho Hst)
    as (e & oe & Hchain & He & Hwalk).
  { apply lookup_lt_Some in Hthis. lia. }
  exists e, oe. split; [done|]. split; [done|].
  unfold getNestedLastSubStatusBlockId, deref, get, bind, ret.
  by rewrite Hthis, Hwalk.
Qed.

Lemma last_sub_status_walk_terminates_witness :
  ∃ e oe,
    chain_end (objects (exec [NewState (loading "a"); CreateStatus d1 0;
                              AddSubStatus 0 d2 0; AddSubStatus 1 d3 0]))
      1 e ∧
    objects (exec [NewState (loading "a"); CreateStatus d1 0;
                   AddSubStatus 0 d2 0; AddSubStatus 1 d3 0]) !! e
      = Some oe ∧
    getNestedLastSubStatusBlockId 0
      (exec [NewState (loading "a"); CreateStatus d1 0;
             AddSubStatus 0 d2 0; AddSubStatus 1 d3 0])
      = (Normal (stepId oe),
         exec [NewState (loading "a"); CreateStatus d1 0;
               AddSubStatus 0 d2 0; AddSubStatus 1 d3 0]).
Proof.
  apply (last_sub_status_walk_terminates
           [NewState (loading "a"); CreateStatus d1 0;
            AddSubStatus 0 d2 0; AddSubStatus 1 d3 0]
           0 "1700000000000-0.25" 0 1 0).
  reflexivity.
Defined.

(** **** X4
    On a controller that has ended, each of the four step-creating methods
    throws "Prediction process has ended." and leaves everything as it
    was: no step controller is made, none is registered, no
    [lastSubStatus] is moved. *)
Theorem creating_on_ended_controller_changes_nothing (calls : list Call) :
  let w := exec calls in
  endedFlag w = true →
  (∀ d initialState,
     createStatus d initialState w
       = (Throw (Error "Prediction process has ended."), w)) ∧
  (∀ d citedText source,
     createCitationBlock d citedText source w
       = (Throw (Error "Prediction process has ended."), w)) ∧
  (∀ d debugInfo,
     createDebugInfoBlock d debugInfo w
       = (Throw (Error "Prediction process has ended."), w)) ∧
  (∀ this d initialState o,
     objects w !! this = Some o → is_status o →
     addSubStatus this d initialState w
       = (Throw (Error "Prediction process has ended."), w)).
Proof.
  intros w Hended. pose proof (exec_wf calls : wf w) as Hwf.
  split; [|split; [|split]].
  - intros d initialState. rewrite createStatus_eq. by rewrite Hended.
  - intros d citedText source. rewrite createCitationBlock_eq.
    by rewrite Hended.
  - intros d debugInfo. rewrite createDebugInfoBlock_eq. by rewrite Hended.
  - intros this d initialState [id ind sub ls| |] Hthis Hst; try done.
    destruct (wf_lastSub _ Hwf _ _ _ _ _ Hthis) as (Hle & o & Ho & Hso).
    destruct (walk_chain_end (objects w) (wf_lastSub _ Hwf)
                (length (objects w)) sub o Ho Hso)
      as (e & oe & _ & _ & Hwalk).
    { apply lookup_lt_Some in Hthis. lia. }
    by apply (addSubStatus_ended _ _ _ _ _ _ _ _ _ Hthis Hwalk).
Qed.

Lemma creating_on_ended_controller_changes_nothing_witness :
  (∀ d initialState,
     createStatus d initialState (exec calls_ended)
       = (Throw (Error "Prediction process has ended."),
          exec calls_ended)) ∧
  (∀ d citedText source,
     createCitationBlock d citedText source (exec calls_ended)
       = (Throw (Error "Prediction process has ended."),
          exec calls_ended)) ∧
  (∀ d debugInfo,
     createDebugInfoBlock d debugInfo (exec calls_ended)
       = (Throw (Error "Prediction process has ended."),
          exec calls_ended)) ∧
  (∀ this d initialState o,
     objects (exec calls_ended) !! this = Some o → is_status o →
     addSubStatus this d initialState (exec calls_ended)
       = (Throw (Error "Prediction process has ended."),
          exec calls_ended)).
Proof.
  apply (creating_on_ended_controller_changes_nothing calls_ended).
  reflexivity.
Defined.

(** *** State objects: who writes into them *)

Lemma setState_states this state w : states (setState this state w).2 = states w.
Proof.
  destruct (objects w !! this) as [[id ind sub ls| |]|] eqn:Ha;
    try (unfold setState, deref, bind, throw; by rewrite Ha).
  rewrite (setState_eq _ _ _ _ _ _ _ Ha), sendUpdate_eq. cbn.
  by destruct (endedFlag w).
Qed.

Lemma ensureEnded_states a w :
  states w `prefix_of` states (ensureEnded a w).2.
Proof.
  destruct (objects w !! a) as [[id ind sub ls| |]|] eqn:Ha;
    try (unfold ensureEnded, deref, bind, ret; by rewrite Ha).
  destruct (states w !! ls) as [s|] eqn:Hs.
  - rewrite (ensureEnded_eq _ _ _ _ _ _ _ Ha Hs).
    destruct (includes _ _); [|reflexivity].
    rewrite setState_states. cbn. by apply prefix_app_r.
  - unfold ensureEnded, deref, readState, bind. by rewrite Ha, Hs.
Qed.

(** **** X5
    [end()] never writes into a state object: every [StatusStepState]
    object that exists when it is called, the ones the caller passed to
    [createStatus], [addSubStatus] and [setState] included, has the same
    status and text when [end()] is left, also when it throws. *)
Theorem end_keeps_state_objects (w : World) (state : sref)
    (s : StatusStepState) :
  states w !! state = Some s → states (end_ w).2 !! state = Some s.
Proof.
  intros Hs. eapply prefix_lookup_Some; [exact Hs|].
  unfold end_, get, modify, bind.
  pose proof (forOf_preserves (λ w', states w `prefix_of` states w')
                ensureEnded (stepControllers w)) as Hloop.
  simpl in Hloop. specialize (Hloop
    (λ a w' H, transitivity H (ensureEnded_states a w')) w
    (reflexivity _)).
  by destruct (forOf _ _ w) as [[[]|e|] w'].
Qed.

Lemma end_keeps_state_objects_witness :
  states (end_ (exec calls_mixed)).2 !! 0 = Some (loading "reading").
Proof. apply (end_keeps_state_objects (exec calls_mixed) 0). reflexivity. Defined.

(** **** X6
    [setText] writes into the state object itself.  When two status steps
    hold the same state object (the caller passed one object twice),
    [setText] on one of them changes the text of the other as well, whether
    or not the controller has ended; the status is kept. *)
Theorem setText_reaches_every_holder (calls : list Call) (a b : addr)
    (ida idb : string) (inda indb : nat) (suba subb : addr) (ls : sref)
    (t : string) :
  let w := exec calls in
  objects w !! a = Some (PredictionProcessStatusController ida inda suba ls) →
  objects w !! b = Some (PredictionProcessStatusController idb indb subb ls) →
  ∃ s, states w !! ls = Some s ∧
       stateOf (setText a t w).2 b = Some {| status := status s; text := t |}.
Proof.
  intros w Ha Hb. pose proof (exec_wf calls : wf w) as Hwf.
  destruct (lookup_lastState _ _ _ _ _ _ Hwf Ha) as [s Hs].
  exists s. split; [done|].
  rewrite (setText_eq _ _ _ _ _ _ _ _ Ha Hs), sendUpdate_eq. cbn.
  unfold stateOf.
  destruct (endedFlag w); cbn; rewrite Hb;
    (rewrite list_lookup_insert_eq; [done|by eapply lookup_lt_Some]).
Qed.

Lemma setText_reaches_every_holder_witness :
  ∃ s,
    states (exec [NewState (loading "a"); CreateStatus d1 0;
                  CreateStatus d2 0]) !! 0 = Some s ∧
    stateOf
      (setText 0 "b"
         (exec [NewState (loading "a"); CreateStatus d1 0;
                CreateStatus d2 0])).2 1
      = Some {| status := status s; text := "b" |}.
Proof.
  apply (setText_reaches_every_holder
           [NewState (loading "a"); CreateStatus d1 0; CreateStatus d2 0]
           0 1 "1700000000000-0.25" "1700000000000-0.75" 0 0 0 1 0 "b");
    reflexivity.
Defined.

(** **** X7
    [setState] makes the step refer to the state object given and does
    nothing else to the stores: no state object is written into (the one
    the step referred to before is as it was), and every other step
    controller is as it was.  On a controller that has not ended it
    returns, having handed the coprocessor exactly one [status.update] with
    the identity of the step and the state given. *)
Theorem setState_only_moves_the_reference (calls : list Call) (this : addr)
    (id : string) (ind : nat) (sub : addr) (ls state : sref) :
  let w := exec calls in
  objects w !! this = Some (PredictionProcessStatusController id ind sub ls) →
  let w' := (setState this state w).2 in
  states w' = states w ∧
  objects w' !! this
    = Some (PredictionProcessStatusController id ind sub state) ∧
  (∀ other, other ≠ this → objects w' !! other = objects w !! other) ∧
  (endedFlag w = false →
   (setState this state w).1 = Normal tt ∧
   handled w' = handled w ++ [status_update id state]).
Proof.
  intros w Hthis w'. subst w'.
  pose proof (lookup_lt_Some _ _ _ Hthis) as Hlt.
  split; [apply setState_states|].
  rewrite (setState_eq _ _ _ _ _ _ _ Hthis), sendUpdate_eq. cbn.
  destruct (endedFlag w); cbn.
  - split; [by rewrite list_lookup_insert_eq|]. split; [|done].
    intros other Hne. by rewrite list_lookup_insert_ne.
  - split; [by rewrite list_lookup_insert_eq|]. split; [|done].
    intros other Hne. by rewrite list_lookup_insert_ne.
Qed.

Lemma setState_only_moves_the_reference_witness :
  let w := exec [NewState (loading "a"); CreateStatus d1 0;
                 NewState (done_ "b")] in
  let w' := (setState 0 1 w).2 in
  states w' = states w ∧
  objects w' !! 0
    = Some (PredictionProcessStatusController "1700000000000-0.25" 0 0 1) ∧
  (∀ other, other ≠ 0 → objects w' !! other = objects w !! other) ∧
  (endedFlag w = false →
   (setState 0 1 w).1 = Normal tt ∧
   handled w' = handled w ++ [status_update "1700000000000-0.25" 1]).
Proof.
  apply (setState_only_moves_the_reference
           [NewState (loading "a"); CreateStatus d1 0; NewState (done_ "b")]
           0 "1700000000000-0.25" 0 0 0 1).
  reflexivity.
Defined.

(** *** The updates of a forced termination *)

(** The identity and the text of the step at [a], if it is a status step
    that is waiting or loading. *)
Definition cancellation (w : World) (a : addr) : option (string * string) :=
  match objects w !! a with
  | Some (PredictionProcessStatusController id _ _ ls) =>
      match states w !! ls with
      | Some s =>
          if includes ["loading"; "waiting"] (status s)
          then Some (id, text s) else None
      | None => None
      end
  | _ => None
  end.

(** [u] is the update that tells the cancellation [c]. *)
Definition tells (w : World) (u : PromptPreprocessorUpdate)
    (c : string * string) : Prop :=
  ∃ state, u = status_update c.1 state ∧
           states w !! state = Some (canceled c.2).

Lemma tells_later w w' :
  states w `prefix_of` states w' →
  ∀ u c, tells w u c → tells w' u c.
Proof.
  intros Hpre u c (state & -> & Hs). exists state. split; [done|].
  by eapply prefix_lookup_Some.
Qed.

Lemma ensureEnded_updates a o w :
  wf w → endedFlag w = false → objects w !! a = Some o →
  ∃ news, handled (ensureEnded a w).2 = handled w ++ news ∧
          Forall2 (tells (ensureEnded a w).2) news
            (option_list (cancellation w a)).
Proof.
  intros Hwf Hflag Ha. unfold cancellation. rewrite Ha.
  destruct o as [id ind sub ls|id|id].
  - destruct (lookup_lastState _ _ _ _ _ _ Hwf Ha) as [s Hs].
    rewrite (ensureEnded_eq _ _ _ _ _ _ _ Ha Hs), Hs.
    destruct (includes _ _).
    + erewrite setState_eq by exact Ha. rewrite sendUpdate_eq. cbn.
      rewrite Hflag. cbn. eexists. split; [done|].
      apply Forall2_cons. split; [|constructor].
      eexists. split; [done|]. cbn.
      rewrite lookup_app_r by done. by rewrite Nat.sub_diag.
    + exists []. rewrite app_nil_r. split; [done|constructor].
  - rewrite (ensureEnded_leaf _ _ _ Ha); [|by intros []].
    exists []. rewrite app_nil_r. split; [done|constructor].
  - rewrite (ensureEnded_leaf _ _ _ Ha); [|by intros []].
    exists []. rewrite app_nil_r. split; [done|constructor].
Qed.

(** A step that is left alone would be cancelled later as it would be
    now. *)
Lemma cancellation_frame a w w1 :
  wf w →
  objects w1 !! a = objects w !! a →
  states w `prefix_of` states w1 →
  cancellation w1 a = cancellation w a.
Proof.
  intros Hwf Hsame Hpre. unfold cancellation. rewrite Hsame.
  destruct (objects w !! a) as [[id ind sub ls|id|id]|] eqn:Ha; try done.
  destruct (lookup_lastState _ _ _ _ _ _ Hwf Ha) as [s Hs].
  by rewrite Hs, (prefix_lookup_Some _ _ _ _ Hs Hpre).
Qed.

Lemma omap_cons_option_list {A B} (f : A → option B) x l :
  omap f (x :: l) = option_list (f x) ++ omap f l.
Proof. simpl. by destruct (f x). Qed.

Lemma ensureEnded_loop_updates l : ∀ w,
  wf w → endedFlag w = false → NoDup l →
  (∀ a, a ∈ l → a < length (objects w)) →
  ∃ news, handled (forOf l ensureEnded w).2 = handled w ++ news ∧
          Forall2 (tells (forOf l ensureEnded w).2) news
            (omap (cancellation w) l).
Proof.
  induction l as [|a l IH]; intros w Hwf Hflag Hnd Hl.
  { exists []. simpl. rewrite app_nil_r. split; [done|constructor]. }
  apply NoDup_cons in Hnd as [Hal Hnd].
  assert (a < length (objects w)) as Ha by (apply Hl; by left).
  apply lookup_lt_is_Some in Ha as [o Ha].
  destruct (ensureEnded_live _ _ _ Hwf Hflag Ha)
    as (w1 & Heq & Hflag1 & Hpre1 & Hlen1 & Hframe1 & _).
  destruct (ensureEnded_updates _ _ _ Hwf Hflag Ha) as (news1 & Hh1 & Ht1).
  pose proof (ensureEnded_wf a w Hwf) as Hwf1.
  rewrite Heq in Hwf1, Hh1, Ht1. cbn [snd] in *.
  assert (∀ b, b ∈ l → b < length (objects w1)) as Hl1.
  { intros b Hb. rewrite Hlen1. apply Hl. by right. }
  destruct (IH w1 Hwf1 Hflag1 Hnd Hl1) as (news & Hh & Ht).
  destruct (ensureEnded_loop_live l w1 Hwf1 Hflag1 Hnd Hl1)
    as (w' & Heq' & _ & Hpre' & _ & _).
  cbn [forOf]. unfold bind. rewrite Heq. rewrite Heq' in *. cbn [snd] in *.
  exists (news1 ++ news). rewrite Hh, Hh1, <-app_assoc. split; [done|].
  rewrite omap_cons_option_list. apply Forall2_app.
  - eapply Forall2_impl; [exact Ht1|]. by apply tells_later.
  - erewrite (list_omap_ext (cancellation w) (cancellation w1) l l);
      [exact Ht|].
    apply Forall_Forall2_diag, Forall_forall. intros b Hb. symmetry.
    apply cancellation_frame; [done| |done].
    apply Hframe1. by intros ->.
Qed.

(** **** X8
    On a controller that has not ended, [end()] hands the coprocessor
    exactly one [status.update] for each registered status step that is
    waiting or loading, in the order in which the steps were registered,
    each with the identity of its step and a canceled state carrying the
    step's text, and no other update. *)
Theorem end_tells_each_cancellation_once (calls : list Call) :
  let w := exec calls in
  endedFlag w = false →
  ∃ news,
    handled (end_ w).2 = handled w ++ news ∧
    Forall2 (tells (end_ w).2) news
      (omap (cancellation w) (stepControllers w)).
Proof.
  intros w Hflag. pose proof (exec_wf calls : wf w) as Hwf.
  destruct (ensureEnded_loop_updates (stepControllers w) w Hwf Hflag)
    as (news & Hh & Ht).
  { by apply wf_nodup. }
  { by apply wf_registered. }
  destruct (ensureEnded_loop_live (stepControllers w) w Hwf Hflag)
    as (w' & Heq & _).
  { by apply wf_nodup. }
  { by apply wf_registered. }
  exists news. unfold end_, get, modify, bind.
  rewrite Heq in *. by split.
Qed.

Lemma end_tells_each_cancellation_once_witness :
  ∃ news,
    handled (end_ (exec calls_mixed)).2
      = handled (exec calls_mixed) ++ news ∧
    Forall2 (tells (end_ (exec calls_mixed)).2) news
      (omap (cancellation (exec calls_mixed))
         (stepControllers (exec calls_mixed))).
Proof.
  apply (end_tells_each_cancellation_once calls_mixed). reflexivity.
Defined.

Example cancellations_of_calls_mixed :
  omap (cancellation (exec calls_mixed)) (stepControllers (exec calls_mixed))
  = [("1700000000000-0.25", "reading")].
Proof. reflexivity. Qed.

(** *** Ending twice *)

Lemma ensureEnded_nothing_open a w :
  wf w → a < length (objects w) → cancellation w a = None →
  ensureEnded a w = (Normal tt, w).
Proof.
  intros Hwf Ha Hc. apply lookup_lt_is_Some in Ha as [o Ha].
  unfold cancellation in Hc. rewrite Ha in Hc.
  destruct o as [id ind sub ls|id|id].
  - destruct (lookup_lastState _ _ _ _ _ _ Hwf Ha) as [s Hs].
    rewrite Hs in Hc. rewrite (ensureEnded_eq _ _ _ _ _ _ _ Ha Hs).
    by destruct (includes _ _).
  - apply (ensureEnded_leaf _ _ _ Ha). by intros [].
  - apply (ensureEnded_leaf _ _ _ Ha). by intros [].
Qed.

Lemma ensureEnded_loop_nothing_open l w :
  wf w →
  (∀ a, a ∈ l → a < length (objects w) ∧ cancellation w a = None) →
  forOf l ensureEnded w = (Normal tt, w).
Proof.
  intros Hwf. induction l as [|a l IH]; intros Hl; simpl; [done|].
  destruct (Hl a) as [Ha Hc]; [by left|].
  unfold bind. rewrite (ensureEnded_nothing_open _ _ Hwf Ha Hc).
  apply IH. intros b Hb. apply Hl. by right.
Qed.

Lemma force_terminated_not_open w w' a :
  force_terminated w w' a → cancellation w' a = None.
Proof.
  unfold force_terminated, cancellation. intros Hft.
  destruct (objects w !! a) as [[id ind sub ls|id|id]|]; try done;
    [|by rewrite Hft..].
  destruct Hft as (s & Hs & Hft).
  destruct (includes _ (status s)) eqn:Hopen.
  - destruct Hft as (ls' & -> & ->). done.
  - destruct Hft as [-> ->]. by rewrite Hopen.
Qed.

Lemma set_endedFlag_id w : endedFlag w = true → set_endedFlag true w = w.
Proof. destruct w. simpl. by intros ->. Qed.

Lemma ensureEnded_registered a w :
  stepControllers (ensureEnded a w).2 = stepControllers w.
Proof.
  destruct (objects w !! a) as [[id ind sub ls| |]|] eqn:Ha;
    try (unfold ensureEnded, deref, bind, ret; by rewrite Ha).
  destruct (states w !! ls) as [s|] eqn:Hs.
  - rewrite (ensureEnded_eq _ _ _ _ _ _ _ Ha Hs).
    destruct (includes _ _); [|done].
    erewrite setState_eq by exact Ha. rewrite sendUpdate_eq. cbn.
    by destruct (endedFlag w).
  - unfold ensureEnded, deref, readState, bind. by rewrite Ha, Hs.
Qed.

Lemma ensureEnded_loop_registered l w :
  stepControllers (forOf l ensureEnded w).2 = stepControllers w.
Proof.
  apply (forOf_preserves (λ w', stepControllers w' = stepControllers w));
    [|done].
  intros a w' H. by rewrite ensureEnded_registered.
Qed.

(** **** X9
    [end()] called again right after an [end()] that ended a live
    controller returns without throwing and changes nothing: no step is
    cancelled a second time and no update is sent. *)
Theorem end_again_changes_nothing (calls : list Call) :
  let w := exec calls in
  endedFlag w = false →
  ∃ w1, end_ w = (Normal tt, w1) ∧ end_ w1 = (Normal tt, w1).
Proof.
  intros w Hflag. pose proof (exec_wf calls : wf w) as Hwf.
  destruct (ensureEnded_loop_live (stepControllers w) w Hwf Hflag)
    as (w' & Heq & Hflag' & Hpre & Hframe & Hft).
  { by apply wf_nodup. }
  { by apply wf_registered. }
  pose proof (end_wf w Hwf) as Hwf1.
  assert (end_ w = (Normal tt, set_endedFlag true w')) as Hend.
  { unfold end_, get, modify, bind. by rewrite Heq. }
  rewrite Hend in Hwf1. cbn [snd] in Hwf1.
  exists (set_endedFlag true w'). split; [done|].
  unfold end_ at 1. unfold get, modify, bind. cbn [stepControllers].
  rewrite ensureEnded_loop_nothing_open; [|done|].
  - by rewrite set_endedFlag_id.
  - intros a Ha. split; [by apply (wf_registered _ Hwf1)|].
    assert (stepControllers w' = stepControllers w) as Hreg.
    { pose proof (ensureEnded_loop_registered (stepControllers w) w) as H.
      by rewrite Heq in H. }
    cbn in Ha. rewrite Hreg in Ha.
    apply (force_terminated_not_open w). by apply Hft.
Qed.

Lemma end_again_changes_nothing_witness :
  ∃ w1, end_ (exec calls_mixed) = (Normal tt, w1) ∧
        end_ w1 = (Normal tt, w1).
Proof. apply (end_again_changes_nothing calls_mixed). reflexivity. Defined.

(** *** Indentation and registration *)

(** Registered status steps are at indentation 0, and the last sub-status
    of a step is one level below it. *)
Record tree_shaped (w : World) : Prop := mkTreeShaped {
  ts_registered :
    ∀ (a : addr) id ind sub ls,
      a ∈ stepControllers w →
      objects w !! a = Some (PredictionProcessStatusController id ind sub ls) →
      ind = 0;
  ts_child :
    ∀ (a : addr) id ind (sub : addr) ls,
      objects w !! a = Some (PredictionProcessStatusController id ind sub ls) →
      a ≠ sub →
      ∃ id' sub' ls',
        objects w !! sub
          = Some (PredictionProcessStatusController id' (ind + 1) sub' ls');
}.

Lemma tree_shaped_initial : tree_shaped initial.
Proof.
  split; simpl.
  - intros a id ind sub ls Ha. by apply elem_of_nil in Ha.
  - intros a id ind sub ls Ha. by rewrite lookup_nil in Ha.
Qed.

(** Only the stores of controllers matter. *)
Lemma tree_shaped_same w w' :
  stepControllers w' = stepControllers w → objects w' = objects w →
  tree_shaped w → tree_shaped w'.
Proof. intros H1 H2 [Hr Hc]. split; rewrite ?H1, ?H2; done. Qed.

Lemma tree_shaped_store_lastState a id ind sub ls ls' w :
  objects w !! a = Some (PredictionProcessStatusController id ind sub ls) →
  tree_shaped w →
  tree_shaped
    (set_objects
       (<[a := PredictionProcessStatusController id ind sub ls']>
          (objects w)) w).
Proof.
  intros Ha [Hr Hc]. pose proof (lookup_lt_Some _ _ _ Ha) as Hlt.
  split; cbn.
  - intros b idb indb subb lsb Hb Hob.
    destruct (decide (a = b)) as [<-|Hne].
    + rewrite list_lookup_insert_eq in Hob by done. simplify_eq.
      by eapply Hr.
    + rewrite list_lookup_insert_ne in Hob by done. by eapply Hr.
  - intros b idb indb subb lsb Hob Hsub.
    assert (∃ lsb', objects w !! b
              = Some (PredictionProcessStatusController idb indb subb lsb'))
      as [lsb' Hob'].
    { destruct (decide (a = b)) as [<-|Hne].
      - rewrite list_lookup_insert_eq in Hob by done. simplify_eq. eauto.
      - rewrite list_lookup_insert_ne in Hob by done. eauto. }
    destruct (Hc _ _ _ _ _ Hob' Hsub) as (id' & sub' & ls'' & Hchild).
    destruct (decide (a = subb)) as [<-|Hne].
    + rewrite list_lookup_insert_eq by done. simplify_eq. eauto.
    + rewrite list_lookup_insert_ne by done. eauto.
Qed.

Lemma tree_shaped_new o w :
  wf w →
  (∀ id ind sub ls,
     o = PredictionProcessStatusController id ind sub ls →
     ind = 0 ∧ sub = length (objects w)) →
  tree_shaped w →
  tree_shaped
    (set_stepControllers (stepControllers w ++ [length (objects w)])
       (set_objects (objects w ++ [o]) w)).
Proof.
  intros Hwf Ho [Hr Hc]. split; cbn.
  - intros a id ind sub ls Ha Hoa.
    apply lookup_app_Some in Hoa as [Hoa|[Hge Hoa]].
    + apply elem_of_app in Ha as [Ha|Ha]; [by eapply Hr|].
      apply list_elem_of_singleton in Ha. apply lookup_lt_Some in Hoa. lia.
    + apply list_lookup_singleton_Some in Hoa as [_ Hoa].
      by destruct (Ho _ _ _ _ Hoa).
  - intros a id ind sub ls Hoa Hsub.
    apply lookup_app_Some in Hoa as [Hoa|[Hge Hoa]].
    + destruct (Hc _ _ _ _ _ Hoa Hsub) as (id' & sub' & ls' & Hchild).
      exists id', sub', ls'. by apply lookup_app_l_Some.
    + apply list_lookup_singleton_Some in Hoa as [Hz Hoa].
      destruct (Ho _ _ _ _ Hoa) as [_ ->]. lia.
Qed.

Lemma tree_shaped_addSubStatus this id ind sub ls cid r w :
  wf w →
  objects w !! this = Some (PredictionProcessStatusController id ind sub ls) →
  tree_shaped w →
  tree_shaped
    (set_objects
       (<[this := PredictionProcessStatusController id ind
                    (length (objects w)) ls]>
          (objects w ++
             [PredictionProcessStatusController cid (ind + 1)
                (length (objects w)) r])) w).
Proof.
  intros Hwf Hthis [Hr Hc]. pose proof (lookup_lt_Some _ _ _ Hthis) as Hlt.
  assert (this < length (objects w ++
            [PredictionProcessStatusController cid (ind + 1)
               (length (objects w)) r])) as Hlt'
    by (rewrite length_app; lia).
  (* what the new store holds at an address, in terms of the old one *)
  assert (∀ (b : addr) idb indb (subb : addr) lsb,
    <[this := PredictionProcessStatusController id ind
                (length (objects w)) ls]>
      (objects w ++
         [PredictionProcessStatusController cid (ind + 1)
            (length (objects w)) r]) !! b
      = Some (PredictionProcessStatusController idb indb subb lsb) →
    (b = this ∧ idb = id ∧ indb = ind ∧ subb = length (objects w)) ∨
    (b = length (objects w) ∧ indb = ind + 1 ∧ subb = b) ∨
    (b ≠ this ∧
     objects w !! b
       = Some (PredictionProcessStatusController idb indb subb lsb)))
    as Hcases.
  { intros b idb indb subb lsb Hb.
    destruct (decide (this = b)) as [<-|Hne].
    - rewrite list_lookup_insert_eq in Hb by done. simplify_eq. by left.
    - rewrite list_lookup_insert_ne in Hb by done.
      apply lookup_app_Some in Hb as [Hb|[Hge Hb]]; [by eauto|].
      apply list_lookup_singleton_Some in Hb as [Hz Hb]. simplify_eq.
      right. left. split; [lia|]. split; [done|lia]. }
  split; cbn.
  - intros b idb indb subb lsb Hb Hob.
    destruct (Hcases _ _ _ _ _ Hob)
      as [(-> & -> & -> & ->)|[(-> & _ & _)|(Hne & Hob')]].
    + by eapply Hr.
    + apply (wf_registered _ Hwf) in Hb. lia.
    + by eapply Hr.
  - intros b idb indb subb lsb Hob Hsub.
    destruct (Hcases _ _ _ _ _ Hob)
      as [(-> & -> & -> & ->)|[(-> & _ & ->)|(Hne & Hob')]].
    + exists cid, (length (objects w)), r.
      rewrite list_lookup_insert_ne by lia.
      rewrite lookup_app_r by done. by rewrite Nat.sub_diag.
    + done.
    + destruct (Hc _ _ _ _ _ Hob' Hsub) as (id' & sub' & ls' & Hchild).
      destruct (decide (this = subb)) as [<-|Hne'].
      * rewrite list_lookup_insert_eq by done. simplify_eq. eauto.
      * rewrite list_lookup_insert_ne by done.
        exists id', sub', ls'. by apply lookup_app_l_Some.
Qed.

Lemma setState_tree_shaped this state w :
  tree_shaped w → tree_shaped (setState this state w).2.
Proof.
  intros Hts.
  destruct (objects w !! this) as [[id ind sub ls| |]|] eqn:Ha;
    try (unfold setState, deref, bind, throw; by rewrite Ha).
  rewrite (setState_eq _ _ _ _ _ _ _ Ha), sendUpdate_eq.
  pose proof (tree_shaped_store_lastState _ _ _ _ _ state _ Ha Hts) as H.
  cbn. destruct (endedFlag w); cbn [snd]; [done|].
  by eapply tree_shaped_same; [| |exact H].
Qed.

Lemma ensureEnded_tree_shaped a w :
  tree_shaped w → tree_shaped (ensureEnded a w).2.
Proof.
  intros Hts.
  destruct (objects w !! a) as [[id ind sub ls| |]|] eqn:Ha;
    try (unfold ensureEnded, deref, bind, ret; by rewrite Ha).
  destruct (states w !! ls) as [s|] eqn:Hs.
  - rewrite (ensureEnded_eq _ _ _ _ _ _ _ Ha Hs).
    destruct (includes _ _); [|done].
    apply setState_tree_shaped. by eapply tree_shaped_same; [| |exact Hts].
  - unfold ensureEnded, deref, readState, bind. by rewrite Ha, Hs.
Qed.

Lemma run_tree_shaped c w :
  wf w → tree_shaped w → tree_shaped (run c w).2.
Proof.
  intros Hwf Hts. destruct c; simpl; rewrite ?void_snd.
  - by eapply tree_shaped_same; [| |exact Hts].
  - by eapply tree_shaped_same; [| |exact Hts].
  - rewrite sendUpdate_eq. destruct (endedFlag w); cbn [snd]; [done|].
    by eapply tree_shaped_same; [| |exact Hts].
  - unfold end_, get, modify, bind.
    pose proof (forOf_preserves tree_shaped ensureEnded (stepControllers w)
                  ensureEnded_tree_shaped w Hts) as Hloop.
    destruct (forOf _ _ w) as [[[]|e|] w']; simpl in *; [|done..].
    by eapply tree_shaped_same; [| |exact Hloop].
  - rewrite createStatus_eq. destruct (endedFlag w); cbn [snd]; [done|].
    pose proof (tree_shaped_new
      (PredictionProcessStatusController (createId d) 0
         (length (objects w)) initialState) w Hwf
      ltac:(intros ???? [= <- <- <- <-]; done) Hts) as H.
    by eapply tree_shaped_same; [| |exact H].
  - rewrite createCitationBlock_eq.
    destruct (endedFlag w); cbn [snd]; [done|].
    pose proof (tree_shaped_new
      (PredictionProcessCitationBlockController (createId d)) w Hwf
      ltac:(done) Hts) as H.
    by eapply tree_shaped_same; [| |exact H].
  - rewrite createDebugInfoBlock_eq.
    destruct (endedFlag w); cbn [snd]; [done|].
    pose proof (tree_shaped_new
      (PredictionProcessDebugInfoBlockController (createId d)) w Hwf
      ltac:(done) Hts) as H.
    by eapply tree_shaped_same; [| |exact H].
  - destruct (objects w !! this) as [[id ind sub ls| |]|] eqn:Ha;
      try (unfold setText, deref, bind, throw; by rewrite Ha).
    destruct (states w !! ls) as [s|] eqn:Hs.
    + rewrite (setText_eq _ _ _ _ _ _ _ _ Ha Hs), sendUpdate_eq. cbn.
      destruct (endedFlag w); cbn [snd];
        by eapply tree_shaped_same; [| |exact Hts].
    + unfold setText, deref, readState, bind. by rewrite Ha, Hs.
  - by apply setState_tree_shaped.
  - destruct (addSubStatus_cases this d initialState w)
      as [->|(id & ind & sub & ls & after & Hthis & Hwalk & Hflag)];
      [done|].
    rewrite (addSubStatus_eq _ _ _ _ _ _ _ _ _ Hthis Hwalk Hflag).
    cbn [snd].
    pose proof (tree_shaped_addSubStatus _ _ _ _ _ (createId d)
                  initialState _ Hwf Hthis Hts) as H.
    by eapply tree_shaped_same; [| |exact H].
Qed.

Lemma exec_from_tree_shaped calls : ∀ w,
  wf w → tree_shaped w → tree_shaped (exec_from w calls).
Proof.
  induction calls as [|c calls IH]; intros w Hwf Hts; simpl; [done|].
  apply IH; [by apply after_wf|]. unfold after.
  destruct (possible c w); [by apply run_tree_shaped|done].
Qed.

(** **** X10
    In every controller a preprocessor can have produced, a status step
    that is registered with the controller, and so visited by [end()], is
    at indentation 0; and the last sub-status of any step is a status step
    one level below its parent and is not registered: [end()] does not
    visit it. *)
Theorem sub_statuses_are_not_registered (calls : list Call) (a : addr)
    (id : string) (ind : nat) (sub : addr) (ls : sref) :
  let w := exec calls in
  objects w !! a = Some (PredictionProcessStatusController id ind sub ls) →
  (a ∈ stepControllers w → ind = 0) ∧
  (a ≠ sub →
   (sub ∉ stepControllers w) ∧
   ∃ id' sub' ls',
     objects w !! sub
       = Some (PredictionProcessStatusController id' (ind + 1) sub' ls')).
Proof.
  intros w Ha.
  pose proof (exec_from_tree_shaped calls initial wf_initial
                tree_shaped_initial) as [Hr Hc].
  fold (exec calls) in Hr, Hc. fold w in Hr, Hc.
  split; [intros Hin; by eapply Hr|].
  intros Hsub. destruct (Hc _ _ _ _ _ Ha Hsub) as (id' & sub' & ls' & Hchild).
  split; [|by eauto].
  intros Hin. specialize (Hr _ _ _ _ _ Hin Hchild). lia.
Qed.

Lemma sub_statuses_are_not_registered_witness :
  let w := exec calls_sub in
  (0 ∈ stepControllers w → 0 = 0) ∧
  (0 ≠ 1 →
   (1 ∉ stepControllers w) ∧
   ∃ id' sub' ls',
     objects w !! 1
       = Some (PredictionProcessStatusController id' (0 + 1) sub' ls')).
Proof.
  apply (sub_statuses_are_not_registered calls_sub 0 "1700000000000-0.25"
           0 1 2).
  reflexivity.
Defined.

(** **** X11
    In every controller a preprocessor can have produced, every reference
    leads to an object: a step controller is registered at most once and
    exists; the [lastState] of a status step is a state object that
    exists; its [lastSubStatus] is the step itself or a status step made
    after it. *)
Theorem references_stay_valid (calls : list Call) :
  let w := exec calls in
  NoDup (stepControllers w) ∧
  (∀ a, a ∈ stepControllers w → is_Some (objects w !! a)) ∧
  (∀ (a : addr) id ind (sub : addr) ls,
     objects w !! a = Some (PredictionProcessStatusController id ind sub ls) →
     is_Some (states w !! ls) ∧ a ≤ sub ∧
     ∃ o, objects w !! sub = Some o ∧ is_status o).
Proof.
  intros w. pose proof (exec_wf calls : wf w) as Hwf.
  split; [by apply wf_nodup|]. split.
  - intros a Ha. by apply lookup_lt_is_Some, (wf_registered _ Hwf).
  - intros a id ind sub ls Ha. split.
    + by eapply lookup_lt_is_Some, (wf_lastState _ Hwf).
    + by eapply (wf_lastSub _ Hwf).
Qed.

(** *** debug *)

(** A value passed to [debug], by its [typeof], together with what the
    built-in conversion [stringifyAny] calls on it gives: the text of
    [toString()], the [stack] of an [Error] ([None] when it has none), the
    completion of [JSON.stringify(message, null, 2)] ([None] when it gives
    [undefined]; it throws on a cyclic object). *)
Inductive Message :=
| MString (s : string)
| MNumber (toString : string)
| MBoolean (b : bool)
| MUndefined
| MNull
| MError (stack : option string)
| MObject (json : Completion (option string))
| MBigInt (toString : string)
| MSymbol (toString : string)
| MFunction (toString : string).

(** [None] is [undefined]. *)
Definition stringifyAny (message : Message) : Completion (option string) :=
  match message with
  | MString s => Normal (Some s)
  | MNumber t => Normal (Some t)
  | MBoolean b => Normal (Some (if b then "true" else "false"))
  | MUndefined => Normal (Some "undefined")
  | MNull => Normal (Some "null")
  | MError stack => Normal stack
  | MObject json => json
  | MBigInt t => Normal (Some t)
  | MSymbol t => Normal (Some t)
  | MFunction t => Normal (Some t)
  end.

(** [messages.map(stringifyAny)]: the first conversion that throws ends
    the call. *)
Fixpoint map_stringifyAny (messages : list Message)
    : Completion (list (option string)) :=
  match messages with
  | [] => Normal []
  | message :: rest =>
      match stringifyAny message with
      | Normal t =>
          match map_stringifyAny rest with
          | Normal ts => Normal (t :: ts)
          | Throw e => Throw e
          | Diverges => Diverges
          end
      | Throw e => Throw e
      | Diverges => Diverges
      end
  end.

(** [Array.prototype.join]: an [undefined] element counts as the empty
    text. *)
Definition join (separator : string) (items : list (option string))
    : string :=
  String.concat separator (default "" <$> items).

Definition concatenateDebugMessages (messages : list Message)
    : Completion string :=
  match map_stringifyAny messages with
  | Normal ts => Normal (join " " ts)
  | Throw e => Throw e
  | Diverges => Diverges
  end.

Definition debug (d : Draw) (messages : list Message) : M unit :=
  match concatenateDebugMessages messages with
  | Normal text => void (createDebugInfoBlock d text)
  | Throw e => throw e
  | Diverges => diverge
  end.

Lemma map_stringifyAny_strings ss :
  map_stringifyAny (MString <$> ss) = Normal (Some <$> ss).
Proof.
  induction ss as [|s ss IH]; [done|].
  rewrite !fmap_cons. cbn [map_stringifyAny stringifyAny]. by rewrite IH.
Qed.

Lemma concatenateDebugMessages_strings ss :
  concatenateDebugMessages (MString <$> ss) = Normal (String.concat " " ss).
Proof.
  unfold concatenateDebugMessages, join. rewrite map_stringifyAny_strings.
  rewrite <-list_fmap_compose. by rewrite list_fmap_id.
Qed.

(** **** X12
    [debug] with text messages, on a controller that has not ended, hands
    the coprocessor exactly one [debugInfoBlock.create] whose text is the
    messages separated by single spaces (the empty text when there is no
    message), registers one new debug info block, and returns; on a
    controller that has ended it throws "Prediction process has ended."
    and changes nothing. *)
Theorem debug_joins_with_spaces (w : World) (d : Draw) (ss : list string) :
  debug d (MString <$> ss) w =
    if endedFlag w then (Throw (Error "Prediction process has ended."), w)
    else (Normal tt,
          set_stepControllers (stepControllers w ++ [length (objects w)])
            (set_objects
               (objects w ++
                  [PredictionProcessDebugInfoBlockController (createId d)])
               (set_handled
                  (handled w ++
                     [debugInfoBlock_create (createId d)
                        (String.concat " " ss)]) w))).
Proof.
  unfold debug. rewrite concatenateDebugMessages_strings.
  unfold void, bind, ret. rewrite createDebugInfoBlock_eq.
  by destruct (endedFlag w).
Qed.

Lemma map_stringifyAny_throws before e after :
  (∀ m, m ∈ before → ∃ t, stringifyAny m = Normal t) →
  map_stringifyAny (before ++ MObject (Throw e) :: after) = Throw e.
Proof.
  induction before as [|m before IH]; intros Hb; simpl; [done|].
  destruct (Hb m) as [t ->]; [by left|].
  rewrite IH; [done|]. intros m' Hm'. apply Hb. by right.
Qed.

(** **** X13
    When the conversion of one of the messages throws (an object that
    [JSON.stringify] cannot write), [debug] throws that error before
    anything is sent or made: the controller and all its steps are as they
    were, also when the controller has not ended. *)
Theorem debug_conversion_error_changes_nothing (w : World) (d : Draw)
    (before after : list Message) (e : JSError) :
  (∀ m, m ∈ before → ∃ t, stringifyAny m = Normal t) →
  debug d (before ++ MObject (Throw e) :: after) w = (Throw e, w).
Proof.
  intros Hb. unfold debug, concatenateDebugMessages.
  by rewrite (map_stringifyAny_throws _ _ _ Hb).
Qed.

Lemma debug_conversion_error_changes_nothing_witness :
  debug d1 ([MString "state:"; MNull] ++
            MObject (Throw TypeError) :: [MBoolean true])
    (exec calls_mixed)
  = (Throw TypeError, exec calls_mixed).
Proof.
  apply (debug_conversion_error_changes_nothing (exec calls_mixed) d1
           [MString "state:"; MNull] [MBoolean true] TypeError).
  intros m Hm. apply elem_of_cons in Hm as [->|Hm]; [by eexists|].
  apply list_elem_of_singleton in Hm as ->. by eexists.
Defined.

Example debug_mixed_messages :
  concatenateDebugMessages
    [MString "tokens"; MNumber "42"; MBoolean false; MUndefined; MNull;
     MError None; MObject (Normal (Some "{}"))]
  = Normal "tokens 42 false undefined null  {}".
Proof. reflexivity. Qed.

End Preprocess.

(** ** UtilBinary *)

Module Util.
Import Js.

(** Calling an [async] function never throws at the call: whatever its body
    does is reported through the promise it returns ([None]: a promise that
    never settles). *)
Definition call_async {A B} (body : A → Completion B) (a : A)
    : Completion (option (Promise B)) :=
  Normal (async (body a)).

Section UtilBinary.

(** The machine: [os.homedir()], [process.platform], [path.join], and the
    file system as [fs/promises.access] probes it, an [async] function
    whose body throws for a path that cannot be accessed. *)
Variable homedir : string.
Variable platform : string.
Variable join : list string → string.
Variable access_body : string → Completion unit.

Definition access : string → Completion (option (Promise unit)) :=
  call_async access_body.

Record UtilBinary := mkUtilBinary { name : string; path : string }.

Definition constructor (name : string) : UtilBinary :=
  {| name := name;
     path := join [homedir; ".cache"; "lm-studio"; ".internal"; "utils";
                   if String.eqb platform "win32" then name +:+ ".exe"
                   else name] |}.

(** The message is laid out by the [text] tag of lms-common; its words are
    kept. *)
Definition cannot_locate (this : UtilBinary) : JSError :=
  Error ("Cannot locate required dependencies (" +:+ name this +:+
         "). Please make sure you have the latest version of LM Studio installed.").

(** The body of [check]: the promise [access] returns is dropped, it is not
    awaited. *)
Definition check_body (this : UtilBinary) : Completion unit :=
  try_catch (exprStmt (access (path this)))
    (λ _, Throw (cannot_locate this)).

Definition check : UtilBinary → Completion (option (Promise unit)) :=
  call_async check_body.

(** The rejection is there for who awaits the promise. *)
Lemma await_access_throws this e :
  access_body (path this) = Throw e →
  ∃ p, access (path this) = Normal (Some p) ∧ await p = Throw e.
Proof.
  intros H. exists (Rejected e). unfold access, call_async. by rewrite H.
Qed.

(** **** C9
    Whatever the file system answers, also when nothing can be accessed at
    the path, [check()] returns a promise that is fulfilled: the body
    never enters its [catch], so the promise is never rejected with the
    "Cannot locate required dependencies" error. *)
Theorem check_always_resolves (name : string) :
  check (constructor name) = Normal (Some (Fulfilled tt)) ∧
  check_body (constructor name) ≠ Throw (cannot_locate (constructor name)).
Proof. split; [reflexivity|discriminate]. Qed.

End UtilBinary.

(** A machine on which nothing can be accessed. *)
Definition no_such_file (path : string) : Completion unit :=
  Throw (Error ("ENOENT: no such file or directory, access '" +:+ path +:+ "'")).

Example check_without_executable :
  let this := constructor "/home/user" "linux" (String.concat "/") "lms" in
  path this = "/home/user/.cache/lm-studio/.internal/utils/lms" ∧
  access no_such_file (path this)
    = Normal (Some (Rejected (Error
        "ENOENT: no such file or directory, access '/home/user/.cache/lm-studio/.internal/utils/lms'"))) ∧
  check no_such_file this = Normal (Some (Fulfilled tt)).
Proof. repeat split. Qed.

(** *** exec *)

(** How the child process started by [spawn] ends, as [exec] sees it: the
    ['exit'] event with the exit code ([null], here [None], when a signal
    ended the process), or no ['exit'] event at all. *)
Inductive ChildEnd :=
| exit (code : option Z)
| no_exit.

(** [`${this.name} failed with code ${code ?? "unknown"}`] *)
Definition failed_with_code (name : string) (code : option Z) : JSError :=
  Error (name +:+ " failed with code " +:+
         match code with Some c => pretty c | None => "unknown" end).

(** The promise [exec] returns ([None]: it never settles): resolved by the
    ['exit'] listener when the code is 0, rejected by it otherwise. *)
Definition exec (this : UtilBinary) (child : ChildEnd)
    : option (Promise unit) :=
  match child with
  | exit code =>
      if decide (code = Some 0%Z) then Some (Fulfilled tt)
      else Some (Rejected (failed_with_code (name this) code))
  | no_exit => None
  end.

(** A string without the character [c]. *)
Fixpoint lacks (c : ascii) (s : string) : Prop :=
  match s with
  | EmptyString => True
  | String c' s' => c' ≠ c ∧ lacks c s'
  end.

Lemma pretty_N_go_lacks c x :
  (∀ y, pretty_N_char y ≠ c) → ∀ s, lacks c s → lacks c (pretty_N_go x s).
Proof.
  intros Hc. induction (N.lt_wf_0 x) as [x _ IH]; intros s Hs.
  destruct (decide (x = 0)%N) as [->|Hx]; [by rewrite pretty_N_go_0|].
  rewrite pretty_N_go_step by lia. apply IH.
  - apply N.div_lt; lia.
  - by split.
Qed.

(** The text of an exit code is never the word [unknown]. *)
Lemma pretty_Z_not_unknown (z : Z) : pretty z ≠ "unknown".
Proof.
  assert (∀ y, pretty_N_char y ≠ "u"%char) as Hu.
  { intros y. unfold pretty_N_char. by repeat case_match. }
  assert (∀ x : N, lacks "u" (pretty x)) as HN.
  { intros x. unfold pretty, pretty_N. case_decide.
    - simpl. by split.
    - by apply pretty_N_go_lacks. }
  destruct z as [|p|p]; unfold pretty, pretty_Z.
  - done.
  - intros H. specialize (HN (Npos p)).
    unfold pretty at 1, pretty_positive in H. rewrite H in HN.
    by destruct HN.
  - done.
Qed.

Lemma append_inv_head (s t1 t2 : string) : s +:+ t1 = s +:+ t2 → t1 = t2.
Proof. induction s as [|c s IH]; simpl; [done|]. intros [= H]. by apply IH. Qed.

Lemma failed_with_code_inj name c1 c2 :
  failed_with_code name c1 = failed_with_code name c2 → c1 = c2.
Proof.
  unfold failed_with_code. intros [= H].
  apply append_inv_head, append_inv_head in H.
  destruct c1 as [z1|], c2 as [z2|]; try done.
  - by apply (inj pretty) in H as ->.
  - by apply pretty_Z_not_unknown in H.
  - symmetry in H. by apply pretty_Z_not_unknown in H.
Qed.

(** **** X14
    The promise of [exec] is fulfilled exactly when the child exits with
    code 0, and never settles exactly when the child never exits.  For
    every other end it is rejected, a child ended by a signal being
    reported as "failed with code unknown", and the message tells the exit
    codes apart. *)
Theorem exec_settles_by_exit_code (homedir platform : string)
    (join : list string → string) (name : string) :
  let this := constructor homedir platform join name in
  (∀ child, exec this child = Some (Fulfilled tt) ↔ child = exit (Some 0%Z)) ∧
  (∀ child, exec this child = None ↔ child = no_exit) ∧
  exec this (exit None)
    = Some (Rejected (Error (name +:+ " failed with code unknown"))) ∧
  (∀ c1 c2 e,
     exec this (exit c1) = Some (Rejected e) →
     exec this (exit c2) = Some (Rejected e) → c1 = c2).
Proof.
  intros this. split; [|split; [|split]].
  - intros [code|]; simpl; [|done].
    case_decide as Hcode; split; intros Heq; try done.
    + by subst.
    + by simplify_eq.
  - intros [code|]; simpl; [|done]. by case_decide.
  - done.
  - intros c1 c2 e. simpl. repeat case_decide; try done.
    intros H1 H2. apply (failed_with_code_inj name). congruence.
Qed.

End Util.

(** ** OngoingPrediction *)

Module Prediction.
Import Js.

(** Declared in lms-shared-types; opaque payloads that are only passed
    on. *)
Abbreviation LLMPredictionStats := string (only parsing).
Abbreviation LLMDescriptor := string (only parsing).

(** Modelled from the spec: the terminal result, with the fully aggregated
    content and the statistics and model descriptor of the success
    message. *)
Record PredictionResult := mkResult {
  content : string;
  stats : LLMPredictionStats;
  modelInfo : LLMDescriptor;
}.

(** Modelled from the spec: the terminal state of a prediction, as the
    operations of 4.1 produce it. *)
Inductive Terminal :=
| pending
| succeeded (result : PredictionResult)
| failed (error : JSError).

(** Modelled from the spec: [OngoingPrediction] (OngoingPrediction.ts and
    the streamable promise it rests on), which [LLMModel] imports and which
    is not among the sources.  Following sections 3, 4.1 and 9 of the
    specification: an append-only buffer of the fragments received, and one
    terminal outcome shared by all consumers.  The three operations of 4.1
    produce the outcomes [succeeded] and [failed]; a terminal prediction is
    immutable. *)
Record OngoingPrediction := mkPrediction {
  fragments : list string;
  terminal : Terminal;
}.

Definition create : OngoingPrediction :=
  {| fragments := []; terminal := pending |}.

(** Modelled from the spec: [push(fragment)] appends; no fragment is pushed
    after a terminal transition. *)
Definition push (fragment : string) (p : OngoingPrediction)
    : OngoingPrediction :=
  match terminal p with
  | pending => {| fragments := fragments p ++ [fragment]; terminal := pending |}
  | _ => p
  end.

(** Modelled from the spec: [finish(stats, modelInfo)] computes the terminal
    success value from the accumulated fragments, the aggregated content
    being their concatenation in arrival order; a second terminal
    transition has no effect. *)
Definition finish (stats : LLMPredictionStats) (modelInfo : LLMDescriptor)
    (p : OngoingPrediction) : OngoingPrediction :=
  match terminal p with
  | pending =>
      {| fragments := fragments p;
         terminal := succeeded {| content := String.concat "" (fragments p);
                                  stats := stats; modelInfo := modelInfo |} |}
  | _ => p
  end.

(** Modelled from the spec: [fail(error)] rejects all consumers. *)
Definition fail (error : JSError) (p : OngoingPrediction)
    : OngoingPrediction :=
  match terminal p with
  | pending => {| fragments := fragments p; terminal := failed error |}
  | _ => p
  end.

(** Modelled from the spec: the awaited view; [None] while nothing is
    settled. *)
Definition awaited (p : OngoingPrediction)
    : option (Promise PredictionResult) :=
  match terminal p with
  | pending => None
  | succeeded result => Some (Fulfilled result)
  | failed error => Some (Rejected error)
  end.

Inductive IterationEnd :=
| Completed
| Raised (error : JSError).

(** Modelled from the spec: one iteration of the fragment sequence, by one
    consumer: how far in the buffer it is, what it has been given, and how
    it ended if it has. *)
Record Iteration := mkIteration {
  cursor : nat;
  yielded : list string;
  ended : option IterationEnd;
}.

(** Modelled from the spec: an iteration starts at the beginning of the
    buffer (buffered replay). *)
Definition begin : Iteration :=
  {| cursor := 0; yielded := []; ended := None |}.

(** Modelled from the spec: a consumer that is resumed takes the next
    buffered fragment; with none left it completes if the prediction has
    succeeded, raises if it has failed, and stays suspended while it is
    pending. *)
Definition next (p : OngoingPrediction) (it : Iteration) : Iteration :=
  match ended it with
  | Some _ => it
  | None =>
      match fragments p !! cursor it with
      | Some fragment =>
          {| cursor := S (cursor it); yielded := yielded it ++ [fragment];
             ended := None |}
      | None =>
          match terminal p with
          | pending => it
          | succeeded _ =>
              {| cursor := cursor it; yielded := yielded it;
                 ended := Some Completed |}
          | failed error =>
              {| cursor := cursor it; yielded := yielded it;
                 ended := Some (Raised error) |}
          end
      end
  end.

(** Resuming a consumer [n] times. *)
Fixpoint resume (n : nat) (p : OngoingPrediction) (it : Iteration)
    : Iteration :=
  match n with
  | 0 => it
  | S n' => resume n' p (next p it)
  end.

(** Modelled from the spec: section 5, one thread of control on which the
    callbacks of the channel and of the consumers interleave.  A schedule
    is the order in which they ran. *)
Inductive Produce :=
| Push (fragment : string)
| Finish (stats : LLMPredictionStats) (modelInfo : LLMDescriptor)
| Fail (error : JSError).

Inductive Event :=
| Producer (c : Produce)
| Begin
| Next (consumer : nat).

Record System := mkSystem {
  prediction : OngoingPrediction;
  iterations : list Iteration;
}.

Definition produce (c : Produce) (p : OngoingPrediction)
    : OngoingPrediction :=
  match c with
  | Push fragment => push fragment p
  | Finish stats modelInfo => finish stats modelInfo p
  | Fail error => fail error p
  end.

Definition step (sys : System) (ev : Event) : System :=
  match ev with
  | Producer c =>
      {| prediction := produce c (prediction sys);
         iterations := iterations sys |}
  | Begin =>
      {| prediction := prediction sys;
         iterations := iterations sys ++ [begin] |}
  | Next consumer =>
      {| prediction := prediction sys;
         iterations := alter (next (prediction sys)) consumer
                         (iterations sys) |}
  end.

Definition start : System := {| prediction := create; iterations := [] |}.

Definition run_from (sys : System) (schedule : list Event) : System :=
  foldl step sys schedule.

Definition run (schedule : list Event) : System := run_from start schedule.

(** What the producer did during a schedule. *)
Definition produced (schedule : list Event) : list Produce :=
  omap (λ ev, match ev with Producer c => Some c | _ => None end) schedule.

Example interleaved :
  iterations
    (run [Begin; Producer (Push "a"); Next 0; Producer (Push "b"); Begin;
          Next 1; Next 0; Next 0; Producer (Finish "stats" "model"); Next 0])
  = [{| cursor := 2; yielded := ["a"; "b"]; ended := Some Completed |};
     {| cursor := 1; yielded := ["a"]; ended := None |}].
Proof. reflexivity. Qed.

(** *** What every consumer has seen is a prefix of the buffer *)

Definition consistent (p : OngoingPrediction) (it : Iteration) : Prop :=
  yielded it = take (cursor it) (fragments p) ∧
  cursor it ≤ length (fragments p) ∧
  match ended it with
  | None => True
  | Some Completed =>
      cursor it = length (fragments p) ∧ ∃ r, terminal p = succeeded r
  | Some (Raised e) =>
      cursor it = length (fragments p) ∧ terminal p = failed e
  end.

Lemma consistent_begin p : consistent p begin.
Proof. split; [done|]. split; simpl; [lia|done]. Qed.

Lemma consistent_next p it : consistent p it → consistent p (next p it).
Proof.
  intros (Hy & Hc & He). unfold next.
  destruct (ended it) eqn:Hended.
  { split; [done|]. split; [done|]. by rewrite Hended. }
  destruct (fragments p !! cursor it) as [f|] eqn:Hf.
  - split; simpl; [|split; [|done]].
    + rewrite Hy. by erewrite take_S_r.
    + apply lookup_lt_Some in Hf. lia.
  - apply lookup_ge_None in Hf.
    destruct (terminal p) as [|r|e] eqn:Ht.
    { split; [done|]. split; [done|]. by rewrite Hended. }
    { split; [done|]. split; [done|]. simpl. split; [lia|by eauto]. }
    { split; [done|]. split; [done|]. simpl. split; [lia|done]. }
Qed.

Lemma consistent_produce c p it :
  consistent p it → consistent (produce c p) it.
Proof.
  intros Hcons. pose proof Hcons as (Hy & Hc & He).
  destruct (terminal p) as [|r|e] eqn:Ht.
  - assert (ended it = None) as Hended.
    { destruct (ended it) as [[|e]|]; [| |done].
      - destruct He as [_ [r Hr]]. congruence.
      - destruct He as [_ Hr]. congruence. }
    destruct c; simpl; unfold push, finish, fail; rewrite Ht;
      (split; [|split]); simpl; rewrite ?Hended; try done.
    + by rewrite take_app_le.
    + rewrite length_app. lia.
  - destruct c; simpl; unfold push, finish, fail; by rewrite Ht.
  - destruct c; simpl; unfold push, finish, fail; by rewrite Ht.
Qed.

Lemma step_consistent sys ev :
  Forall (consistent (prediction sys)) (iterations sys) →
  Forall (consistent (prediction (step sys ev))) (iterations (step sys ev)).
Proof.
  intros Hall. destruct ev as [c| |i]; simpl.
  - eapply Forall_impl; [done|]. intros it. apply consistent_produce.
  - apply Forall_app. split; [done|].
    apply Forall_singleton, consistent_begin.
  - apply Forall_alter; [done|]. intros it _. apply consistent_next.
Qed.

Lemma run_from_consistent schedule : ∀ sys,
  Forall (consistent (prediction sys)) (iterations sys) →
  Forall (consistent (prediction (run_from sys schedule)))
    (iterations (run_from sys schedule)).
Proof.
  induction schedule as [|ev schedule IH]; intros sys Hall; simpl; [done|].
  by apply IH, step_consistent.
Qed.

(** *** Only the producer changes the prediction *)

Lemma run_from_prediction schedule : ∀ sys,
  prediction (run_from sys schedule)
    = foldl (λ p c, produce c p) (prediction sys) (produced schedule).
Proof.
  induction schedule as [|ev schedule IH]; intros sys; simpl; [done|].
  rewrite IH. by destruct ev.
Qed.

Lemma pushes fs : ∀ p,
  terminal p = pending →
  foldl (λ p c, produce c p) p (Push <$> fs)
    = {| fragments := fragments p ++ fs; terminal := pending |}.
Proof.
  induction fs as [|f fs IH]; intros p Hp; simpl.
  - rewrite app_nil_r. destruct p. simpl in *. by subst.
  - assert (push f p
            = {| fragments := fragments p ++ [f]; terminal := pending |})
      as -> by (unfold push; by rewrite Hp).
    rewrite IH by done. simpl. by rewrite <-app_assoc.
Qed.

(** *** Reading on after the prediction has succeeded *)

Lemma resume_ended n p it e :
  ended it = Some e → resume n p it = it.
Proof.
  revert it. induction n as [|n IH]; intros it He; simpl; [done|].
  unfold next. rewrite He. by apply IH.
Qed.

Lemma resume_to_the_end p r : terminal p = succeeded r →
  ∀ n it, consistent p it → length (fragments p) < cursor it + n →
    yielded (resume n p it) = fragments p ∧
    ended (resume n p it) = Some Completed.
Proof.
  intros Hp n. induction n as [|n IH]; intros it Hit Hn.
  { destruct Hit as (_ & Hc & _). lia. }
  simpl. pose proof (consistent_next p it Hit) as Hnext.
  destruct (ended (next p it)) as [e|] eqn:Hended.
  - rewrite (resume_ended _ _ _ _ Hended).
    destruct Hnext as (Hy & Hc & He). rewrite Hended in He.
    destruct e as [|e]; [|destruct He; congruence].
    destruct He as [He _]. rewrite Hy, He. split; [by rewrite take_ge|done].
  - apply IH; [done|]. unfold next in *.
    destruct (ended it) eqn:Hit_ended; [congruence|].
    destruct (fragments p !! cursor it) as [f|] eqn:Hf; simpl; [lia|].
    by rewrite Hp in Hended.
Qed.

(** **** C1
    Let the channel push the fragments [fs] one by one and then finish,
    while consumers begin iterations and are resumed at any points in
    between.  Then the awaited result is there, its content is the
    concatenation of [fs] in push order, and every iteration, begun at any
    point of the schedule or after it, has until then been given a prefix
    of [fs] and, read on, is given exactly [fs] in that order and
    completes normally. *)
Theorem push_then_finish (schedule : list Event) (fs : list string)
    (stats : LLMPredictionStats) (modelInfo : LLMDescriptor) :
  produced schedule = (Push <$> fs) ++ [Finish stats modelInfo] →
  let sys := run schedule in
  awaited (prediction sys)
    = Some (Fulfilled {| content := String.concat "" fs;
                         stats := stats; modelInfo := modelInfo |}) ∧
  ∀ it, it ∈ iterations sys ++ [begin] →
    yielded it `prefix_of` fs ∧
    yielded (resume (S (length fs)) (prediction sys) it) = fs ∧
    ended (resume (S (length fs)) (prediction sys) it) = Some Completed.
Proof.
  intros Hproduced sys.
  assert (prediction sys =
            {| fragments := fs;
               terminal := succeeded {| content := String.concat "" fs;
                                        stats := stats;
                                        modelInfo := modelInfo |} |})
    as Hp.
  { subst sys. unfold run. rewrite run_from_prediction, Hproduced.
    rewrite foldl_app, pushes by done. done. }
  split; [by rewrite Hp|].
  intros it Hit.
  assert (consistent (prediction sys) it) as Hcons.
  { apply elem_of_app in Hit as [Hit|Hit].
    - pose proof (run_from_consistent schedule start (Forall_nil_2 _))
        as Hall.
      rewrite Forall_forall in Hall. by apply Hall.
    - apply list_elem_of_singleton in Hit as ->. apply consistent_begin. }
  split.
  - destruct Hcons as (-> & _). rewrite Hp. apply prefix_take.
  - pose proof (resume_to_the_end (prediction sys) _ ltac:(by rewrite Hp)
                  (S (length fs)) it Hcons) as Hend.
    replace (fragments (prediction sys)) with fs in Hend by (by rewrite Hp).
    apply Hend. lia.
Qed.

Lemma push_then_finish_witness :
  let sys :=
    run [Begin; Producer (Push "4"); Next 0; Begin;
         Producer (Finish "tokensPerSecond: 10" "model")] in
  awaited (prediction sys)
    = Some (Fulfilled {| content := "4"; stats := "tokensPerSecond: 10";
                         modelInfo := "model" |}) ∧
  ∀ it, it ∈ iterations sys ++ [begin] →
    yielded it `prefix_of` ["4"] ∧
    yielded (resume 2 (prediction sys) it) = ["4"] ∧
    ended (resume 2 (prediction sys) it) = Some Completed.
Proof.
  apply (push_then_finish
           [Begin; Producer (Push "4"); Next 0; Begin;
            Producer (Finish "tokensPerSecond: 10" "model")] ["4"]).
  reflexivity.
Defined.

End Prediction.

(** ** LLMModel: the prediction entry points *)

Module Model.
Import Js.

(** The values a prediction configuration holds; a number stands as the
    text it is written with. *)
#[local] Unset Elimination Schemes.
Inductive JSValue :=
| JUndefined
| JNull
| JBool (b : bool)
| JNumber (literal : string)
| JString (s : string)
| JArray (items : list JSValue)
| JObject (fields : list (string * JSValue)).
#[local] Set Elimination Schemes.

(** Declared in lms-shared-types; an opaque payload that is only passed
    on. *)
Abbreviation LLMModelSpecifier := string (only parsing).

(** One entry of an [LLMChatHistory], as [complete] builds it. *)
Record ChatMessage := mkChatMessage { role : string; content : string }.

(** [LLMCompletionOpts] and [LLMChatResponseOpts]; a configuration is an
    object, read as the map from its own keys to their values. *)
Record Opts := mkOpts {
  config : option (gmap string JSValue);
  structured : option JSValue;
}.

(** The creation parameter of the [predict] channel. *)
Record PredictParameter := mkPredictParameter {
  p_modelSpecifier : LLMModelSpecifier;
  p_history : list ChatMessage;
  p_config : gmap string JSValue;
  p_structured : option JSValue;
}.

Inductive ToClient :=
| fragment (fragment : string)
| success (stats : Prediction.LLMPredictionStats)
    (modelInfo : Prediction.LLMDescriptor).

Inductive ToServer :=
| cancel.

(** A channel as [predict] sets it up: what it was created with, what it
    does to the prediction of the call when a message or an error comes in,
    and what it sends when the cancel event of the call fires. *)
Record Channel := mkChannel {
  endpoint : string;
  creationParameter : PredictParameter;
  onMessage :
    ToClient → Prediction.OngoingPrediction → Prediction.OngoingPrediction;
  onCancel : list ToServer;
  onError :
    JSError → Prediction.OngoingPrediction → Prediction.OngoingPrediction;
}.

Record LLMModel := mkLLMModel {
  specifier : LLMModelSpecifier;
  loaded : bool;
}.

(** [{ ...target, ...source }]: the own keys of [source] are written over
    those of [target]. *)
Definition spread (target source : gmap string JSValue)
    : gmap string JSValue :=
  source ∪ target.

(** [logger.throw(message)] of the logger of lms-common. *)
Definition logger_throw {A} (message : string) : Completion A :=
  Throw (Error message).

Section EntryPoints.

(** [validateMethodParamsOrThrow] of lms-common with the schemas of
    [complete] and of [respond]: the values as the schema returns them, or
    the error thrown. *)
Variable validateCompleteParams :
  string → Opts → JSError + (string * Opts).
Variable validateRespondParams :
  list ChatMessage → Opts → JSError + (list ChatMessage * Opts).

(** The channels [predict] creates on the port: exactly one. *)
Definition predict (this : LLMModel) (modelSpecifier : LLMModelSpecifier)
    (history : list ChatMessage) (config : gmap string JSValue)
    (structured : option JSValue)
    (onFragment : string → Prediction.OngoingPrediction →
                  Prediction.OngoingPrediction)
    (onFinished : Prediction.LLMPredictionStats → Prediction.LLMDescriptor →
                  Prediction.OngoingPrediction →
                  Prediction.OngoingPrediction)
    (onError : JSError → Prediction.OngoingPrediction →
               Prediction.OngoingPrediction)
    : list Channel :=
  [{| endpoint := "predict";
      creationParameter :=
        {| p_modelSpecifier := modelSpecifier; p_history := history;
           p_config := config; p_structured := structured |};
      onMessage := λ message,
        match message with
        | fragment f => onFragment f
        | success stats modelInfo => onFinished stats modelInfo
        end;
      onCancel := [cancel];
      onError := onError |}].

Definition unloaded_error : JSError :=
  Error "Cannot use `complete` because the model is already unloaded.".

(** The result of a call: how it completed, and the channels it created on
    the port. *)
Definition complete (this : LLMModel) (prompt : string) (opts : Opts)
    : Completion Prediction.OngoingPrediction * list Channel :=
  if negb (loaded this) then
    (logger_throw
       "Cannot use `complete` because the model is already unloaded.", [])
  else
    match validateCompleteParams prompt opts with
    | inl e => (Throw e, [])
    | inr (prompt, opts) =>
        let config := default ∅ (config opts) in
        let ongoingPrediction := Prediction.create in
        (Normal ongoingPrediction,
         predict this (specifier this)
           [{| role := "user"; content := prompt |}]
           (<["inputSuffix" := JString ""]>
              (<["inputPrefix" := JString ""]>
                 (spread {["stopStrings" := JArray []]} config)))
           (structured opts)
           Prediction.push Prediction.finish Prediction.fail)
    end.

Definition respond (this : LLMModel) (history : list ChatMessage)
    (opts : Opts)
    : Completion Prediction.OngoingPrediction * list Channel :=
  if negb (loaded this) then
    (logger_throw
       "Cannot use `complete` because the model is already unloaded.", [])
  else
    match validateRespondParams history opts with
    | inl e => (Throw e, [])
    | inr (history, opts) =>
        let config := default ∅ (config opts) in
        let ongoingPrediction := Prediction.create in
        (Normal ongoingPrediction,
         predict this (specifier this) history config (structured opts)
           Prediction.push Prediction.finish Prediction.fail)
    end.

(** **** C2
    A call of [complete] on a loaded model with valid arguments creates one
    [predict] channel whose configuration has [inputPrefix] and
    [inputSuffix] set to the empty string whatever the configuration given
    holds, and [stopStrings] set to the value the configuration gives it if
    it has that key and to the empty array otherwise; every other key is
    as given.  A call of [respond] creates one [predict] channel with the
    chat history and the configuration as given (the empty configuration
    when none is given).  The arguments are those the validation step hands
    back. *)
Theorem complete_resets_template_fields_respond_passes_on
    (this : LLMModel) (prompt prompt' : string) (opts opts' : Opts)
    (history history' : list ChatMessage) (ropts ropts' : Opts) :
  loaded this = true →
  (validateCompleteParams prompt opts = inr (prompt', opts') →
   ∃ ch, complete this prompt opts = (Normal Prediction.create, [ch]) ∧
     endpoint ch = "predict" ∧
     p_history (creationParameter ch)
       = [{| role := "user"; content := prompt' |}] ∧
     p_structured (creationParameter ch) = structured opts' ∧
     let given := default ∅ (config opts') in
     let sent := p_config (creationParameter ch) in
     sent !! "inputPrefix" = Some (JString "") ∧
     sent !! "inputSuffix" = Some (JString "") ∧
     sent !! "stopStrings"
       = Some (default (JArray []) (given !! "stopStrings")) ∧
     ∀ key, key ≠ "inputPrefix" → key ≠ "inputSuffix" →
            key ≠ "stopStrings" → sent !! key = given !! key) ∧
  (validateRespondParams history ropts = inr (history', ropts') →
   ∃ ch, respond this history ropts = (Normal Prediction.create, [ch]) ∧
     endpoint ch = "predict" ∧
     p_history (creationParameter ch) = history' ∧
     p_config (creationParameter ch) = default ∅ (config ropts') ∧
     p_structured (creationParameter ch) = structured ropts').
Proof.
  intros Hloaded. split; intros Hvalid.
  - unfold complete. rewrite Hloaded, Hvalid. simpl.
    eexists. split; [done|]. simpl. repeat (split; [done|]).
    unfold spread. split; [by simplify_map_eq|].
    split; [by simplify_map_eq|]. split.
    + rewrite !lookup_insert_ne by done. rewrite lookup_union.
      destruct (default ∅ (config opts') !! "stopStrings");
        by simplify_map_eq.
    + intros key H1 H2 H3. rewrite !lookup_insert_ne by done.
      rewrite lookup_union, lookup_singleton_ne by done.
      by destruct (default ∅ (config opts') !! key).
  - unfold respond. rewrite Hloaded, Hvalid. simpl.
    eexists. by split.
Qed.

(** **** C7
    A call of [complete] or [respond] on a model that has been unloaded, or
    with arguments the validation rejects, throws at the call: the error
    about the unloaded model, or else the error of the validation.  No
    channel has been created by then, so nothing has been sent. *)
Theorem complete_respond_throw_before_channel
    (this : LLMModel) (prompt : string) (opts : Opts)
    (history : list ChatMessage) (ropts : Opts) :
  (loaded this = false →
   complete this prompt opts = (Throw unloaded_error, []) ∧
   respond this history ropts = (Throw unloaded_error, [])) ∧
  (∀ e, validateCompleteParams prompt opts = inl e →
        complete this prompt opts
          = (Throw (if loaded this then e else unloaded_error), [])) ∧
  (∀ e, validateRespondParams history ropts = inl e →
        respond this history ropts
          = (Throw (if loaded this then e else unloaded_error), [])).
Proof.
  split; [|split].
  - intros Hloaded. unfold complete, respond. by rewrite Hloaded.
  - intros e Hinvalid. unfold complete. rewrite Hinvalid.
    by destruct (loaded this).
  - intros e Hinvalid. unfold respond. rewrite Hinvalid.
    by destruct (loaded this).
Qed.

End EntryPoints.

(** A validation that accepts everything and hands the arguments back, and
    one that rejects everything. *)
Definition accept {A} (a : A) (opts : Opts) : JSError + (A * Opts) :=
  inr (a, opts).
Definition reject {A} (a : A) (opts : Opts) : JSError + (A * Opts) :=
  inl (Error "Invalid parameter(s) for LLMModel.complete").

Definition a_model : LLMModel := {| specifier := "my-model"; loaded := true |}.
Definition gone : LLMModel := {| specifier := "my-model"; loaded := false |}.
Definition no_opts : Opts := {| config := None; structured := None |}.
Definition some_opts : Opts :=
  {| config := Some {[ "stopStrings" := JArray [JString "."];
                       "inputPrefix" := JString "### " ]};
     structured := None |}.

Example complete_default_config :
  (p_config ∘ creationParameter) <$>
    (complete accept a_model "2+2=" no_opts).2
  = [{[ "stopStrings" := JArray []; "inputPrefix" := JString "";
        "inputSuffix" := JString "" ]}].
Proof. vm_compute. reflexivity. Qed.

Lemma complete_resets_template_fields_respond_passes_on_witness :
  (∃ ch, complete accept a_model "2+2=" some_opts
           = (Normal Prediction.create, [ch]) ∧
     endpoint ch = "predict" ∧
     p_history (creationParameter ch)
       = [{| role := "user"; content := "2+2=" |}] ∧
     p_structured (creationParameter ch) = None ∧
     p_config (creationParameter ch) !! "inputPrefix" = Some (JString "") ∧
     p_config (creationParameter ch) !! "inputSuffix" = Some (JString "") ∧
     p_config (creationParameter ch) !! "stopStrings"
       = Some (JArray [JString "."]) ∧
     ∀ key, key ≠ "inputPrefix" → key ≠ "inputSuffix" →
            key ≠ "stopStrings" →
            p_config (creationParameter ch) !! key
              = default ∅ (config some_opts) !! key) ∧
  (∃ ch, respond accept a_model [{| role := "user"; content := "hi" |}]
           some_opts
           = (Normal Prediction.create, [ch]) ∧
     endpoint ch = "predict" ∧
     p_history (creationParameter ch)
       = [{| role := "user"; content := "hi" |}] ∧
     p_config (creationParameter ch) = default ∅ (config some_opts) ∧
     p_structured (creationParameter ch) = None).
Proof.
  destruct (complete_resets_template_fields_respond_passes_on
              accept accept a_model "2+2=" "2+2=" some_opts some_opts
              [{| role := "user"; content := "hi" |}]
              [{| role := "user"; content := "hi" |}] some_opts some_opts
              eq_refl) as [Hc Hr].
  split; [exact (Hc eq_refl)|exact (Hr eq_refl)].
Defined.

Lemma complete_respond_throw_before_channel_witness :
  (complete reject gone "2+2=" no_opts = (Throw unloaded_error, []) ∧
   respond reject gone [] no_opts = (Throw unloaded_error, [])) ∧
  complete reject a_model "2+2=" no_opts
    = (Throw (Error "Invalid parameter(s) for LLMModel.complete"), []) ∧
  respond reject a_model [] no_opts
    = (Throw (Error "Invalid parameter(s) for LLMModel.complete"), []).
Proof.
  destruct (complete_respond_throw_before_channel reject reject gone "2+2="
              no_opts [] no_opts) as (Hgone & _ & _).
  destruct (complete_respond_throw_before_channel reject reject a_model
              "2+2=" no_opts [] no_opts) as (_ & Hc & Hr).
  split; [exact (Hgone eq_refl)|].
  split; [exact (Hc _ eq_refl)|exact (Hr _ eq_refl)].
Defined.

(** *** What complete makes of its configuration *)

(** The configuration [complete] sends for the configuration given. *)
Definition completion_config (given : gmap string JSValue)
    : gmap string JSValue :=
  <["inputSuffix" := JString ""]>
    (<["inputPrefix" := JString ""]>
       (spread {["stopStrings" := JArray []]} given)).

Lemma completion_config_lookup given key :
  completion_config given !! key =
    if decide (key = "inputSuffix") then Some (JString "")
    else if decide (key = "inputPrefix") then Some (JString "")
    else if decide (key = "stopStrings")
         then Some (default (JArray []) (given !! key))
         else given !! key.
Proof.
  unfold completion_config, spread.
  repeat case_decide; subst; simplify_map_eq; try done.
  - rewrite lookup_union. by destruct (given !! "stopStrings").
  - rewrite lookup_union, lookup_singleton_ne by done.
    by destruct (given !! key).
Qed.

(** **** X15
    [complete] does not look at the [inputPrefix] and [inputSuffix] of the
    configuration it is given: two calls whose validated prompts and
    structured settings are the same and whose validated configurations
    agree on every other key complete in the same way and create the same
    channel. *)
Theorem complete_ignores_template_fields
    (validateCompleteParams : string → Opts → JSError + (string * Opts))
    (this : LLMModel) (prompt1 prompt2 prompt' : string)
    (opts1 opts2 opts1' opts2' : Opts) :
  validateCompleteParams prompt1 opts1 = inr (prompt', opts1') →
  validateCompleteParams prompt2 opts2 = inr (prompt', opts2') →
  structured opts1' = structured opts2' →
  (∀ key, key ≠ "inputPrefix" → key ≠ "inputSuffix" →
          default ∅ (config opts1') !! key
            = default ∅ (config opts2') !! key) →
  complete validateCompleteParams this prompt1 opts1
    = complete validateCompleteParams this prompt2 opts2.
Proof.
  intros H1 H2 Hs Hc. unfold complete. rewrite H1, H2, Hs.
  fold (completion_config (default ∅ (config opts1'))).
  fold (completion_config (default ∅ (config opts2'))).
  replace (completion_config (default ∅ (config opts1')))
    with (completion_config (default ∅ (config opts2'))); [done|].
  apply map_eq. intros key. rewrite !completion_config_lookup.
  repeat case_decide; subst; try done.
  - by rewrite Hc.
  - by rewrite Hc.
Qed.

Definition other_opts : Opts :=
  {| config := Some {[ "stopStrings" := JArray [JString "."];
                       "inputSuffix" := JString " ###" ]};
     structured := None |}.

Lemma complete_ignores_template_fields_witness :
  complete accept a_model "2+2=" some_opts
    = complete accept a_model "2+2=" other_opts.
Proof.
  apply (complete_ignores_template_fields accept a_model "2+2=" "2+2="
           "2+2=" some_opts other_opts some_opts other_opts);
    try reflexivity.
  intros key Hp Hs. cbn.
  destruct (decide (key = "stopStrings")) as [->|Hk].
  - reflexivity.
  - rewrite !lookup_insert_ne by done.
    rewrite !lookup_singleton_ne by done. reflexivity.
Defined.

(** **** X16
    Sending what [complete] sends a second time changes nothing: the
    configuration of a completion request, given again as the
    configuration of a completion, is sent as it is.  In particular a
    [stopStrings] the caller has set is never replaced by the default. *)
Theorem completion_config_idempotent (given : gmap string JSValue) :
  completion_config (completion_config given) = completion_config given ∧
  (∀ v, given !! "stopStrings" = Some v →
        completion_config given !! "stopStrings" = Some v).
Proof.
  split.
  - apply map_eq. intros key. rewrite !completion_config_lookup.
    repeat case_decide; subst; done.
  - intros v Hv. rewrite completion_config_lookup.
    rewrite decide_False, decide_False, decide_True by done.
    by rewrite Hv.
Qed.

(** **** X17
    A call of [complete] or [respond] creates a channel exactly when it
    returns: one channel, on the [predict] endpoint, when it returns, and
    none when it throws.  It never creates more than one. *)
Theorem one_channel_per_returning_call
    (validateCompleteParams : string → Opts → JSError + (string * Opts))
    (validateRespondParams :
       list ChatMessage → Opts → JSError + (list ChatMessage * Opts))
    (this : LLMModel) (prompt : string) (history : list ChatMessage)
    (opts : Opts) :
  (match complete validateCompleteParams this prompt opts with
   | (Normal _, channels) =>
       ∃ ch, channels = [ch] ∧ endpoint ch = "predict" ∧
             onCancel ch = [cancel]
   | (_, channels) => channels = []
   end) ∧
  (match respond validateRespondParams this history opts with
   | (Normal _, channels) =>
       ∃ ch, channels = [ch] ∧ endpoint ch = "predict" ∧
             onCancel ch = [cancel]
   | (_, channels) => channels = []
   end).
Proof.
  unfold complete, respond, logger_throw. split.
  - destruct (loaded this); simpl; [|done].
    destruct (validateCompleteParams prompt opts) as [e|[p o]]; [done|].
    by eexists.
  - destruct (loaded this); simpl; [|done].
    destruct (validateRespondParams history opts) as [e|[h o]]; [done|].
    by eexists.
Qed.

(** **** X18
    [complete] is [respond] on the history made of the prompt as one user
    message, under the configuration with [stopStrings] defaulted and the
    template fields blanked: with validations that hand their arguments
    back, the two calls complete in the same way and create the same
    channel. *)
Theorem complete_is_respond_on_one_user_message (this : LLMModel)
    (prompt : string) (opts : Opts) :
  complete accept this prompt opts
    = respond accept this [{| role := "user"; content := prompt |}]
        {| config := Some (completion_config (default ∅ (config opts)));
           structured := structured opts |}.
Proof. unfold complete, respond, accept. by destruct (loaded this). Qed.

End Model.

(** ** The schema of LLMLoadModelConfig *)

Module Schema.

Abbreviation Q := QArith_base.Q (only parsing).

(** A JavaScript number, as far as a schema looks at it: not a number, an
    infinity, or a finite number, which is a rational. *)
Inductive Number :=
| NaN
| Infinity (negative : bool)
| Finite (q : Q).

(** The values a schema is given; an object is read as the map from its
    own keys to their values. *)
#[local] Unset Elimination Schemes.
Inductive Value :=
| VUndefined
| VNull
| VBoolean (b : bool)
| VNumber (n : Number)
| VString (s : string)
| VArray (items : list Value)
| VObject (fields : gmap string Value).
#[local] Set Elimination Schemes.

(** The checks a [z.number()] is refined with: [.min(bound)],
    [.max(bound)] (both inclusive) and [.int()]. *)
Inductive NumberCheck :=
| min (bound : Q)
| max (bound : Q)
| int.

(** The schemas of zod the file builds. *)
#[local] Unset Elimination Schemes.
Inductive ZodSchema :=
| z_number (checks : list NumberCheck)
| z_literal (value : string)
| z_boolean
| z_union (options : list ZodSchema)
| z_array (element : ZodSchema)
| z_object (shape : list (string * ZodSchema))
| z_optional (inner : ZodSchema).
#[local] Set Elimination Schemes.

(** [Number.isInteger] on a finite number. *)
Definition is_integer (q : Q) : bool :=
  (QArith_base.Qnum q mod Zpos (QArith_base.Qden q) =? 0)%Z.

Definition passes (n : Number) (check : NumberCheck) : bool :=
  match n with
  | NaN => false
  | Infinity negative =>
      match check with
      | min _ => negb negative
      | max _ => negative
      | int => false
      end
  | Finite q =>
      match check with
      | min bound => QArith_base.Qle_bool bound q
      | max bound => QArith_base.Qle_bool q bound
      | int => is_integer q
      end
  end.

(** Whether parsing [v] with the schema succeeds.  A number schema wants a
    number that is not [NaN] and passes every check; a literal wants that
    very value; a union wants one of its options to accept; an array
    schema wants an array whose items are all accepted; an object schema
    wants an object whose value at each key of the shape ([undefined] for
    a missing key) is accepted, and does not look at other keys; an
    optional schema accepts [undefined] besides. *)
Fixpoint accepts (schema : ZodSchema) (v : Value) : bool :=
  match schema with
  | z_number checks =>
      match v with
      | VNumber NaN => false
      | VNumber n => forallb (passes n) checks
      | _ => false
      end
  | z_literal value =>
      match v with
      | VString s => bool_decide (s = value)
      | _ => false
      end
  | z_boolean =>
      match v with
      | VBoolean _ => true
      | _ => false
      end
  | z_union options => existsb (λ option, accepts option v) options
  | z_array element =>
      match v with
      | VArray items => forallb (accepts element) items
      | _ => false
      end
  | z_object shape =>
      match v with
      | VObject fields =>
          forallb (λ '(key, field),
                     accepts field (default VUndefined (fields !! key)))
            shape
      | _ => false
      end
  | z_optional inner =>
      match v with
      | VUndefined => true
      | _ => accepts inner v
      end
  end.

Definition Q0 : Q := QArith_base.Qmake 0 1.
Definition Q1 : Q := QArith_base.Qmake 1 1.

Definition llmLlamaAccelerationOffloadRatioSchema : ZodSchema :=
  z_union [z_number [min Q0; max Q1]; z_literal "max"; z_literal "off"].

Definition llmLlamaAccelerationSettingSchema : ZodSchema :=
  z_object
    [("ratio", llmLlamaAccelerationOffloadRatioSchema);
     ("mainGpu", z_number [int]);
     ("tensorSplit", z_array (z_number [int]))].

Definition llmLoadModelConfigSchema : ZodSchema :=
  z_object
    [("gpuOffload", z_optional llmLlamaAccelerationSettingSchema);
     ("contextLength", z_optional (z_number [int; min Q1]));
     ("ropeFrequencyBase", z_optional (z_number []));
     ("ropeFrequencyScale", z_optional (z_number []));
     ("evalBatchSize", z_optional (z_number [int; min Q1]));
     ("flashAttention", z_optional z_boolean);
     ("keepModelInMemory", z_optional z_boolean);
     ("seed", z_optional (z_number [int]));
     ("useFp16ForKVCache", z_optional z_boolean);
     ("tryMmap", z_optional z_boolean);
     ("numExperts", z_optional (z_number [int]))].

Definition number (numerator : Z) (denominator : positive) : Value :=
  VNumber (Finite (QArith_base.Qmake numerator denominator)).

Example accepts_a_config :
  accepts llmLoadModelConfigSchema
    (VObject {[ "contextLength" := number 4096 1;
                "gpuOffload" :=
                  VObject {[ "ratio" := number 1 2;
                             "mainGpu" := number 0 1;
                             "tensorSplit" := VArray [number 1 1] ]};
                "flashAttention" := VBoolean true ]})
  = true.
Proof. vm_compute. reflexivity. Qed.

Example rejects_auto :
  accepts llmLoadModelConfigSchema
    (VObject {[ "gpuOffload" := VString "auto" ]}) = false ∧
  accepts llmLlamaAccelerationOffloadRatioSchema (VString "auto") = false.
Proof. vm_compute. split; reflexivity. Qed.

(** *** Objects: missing keys and other keys *)





(** *** What an accepted value looks like *)



(** **** X20
    The schema of the offload ratio accepts the texts "max" and "off" and
    the finite numbers from 0 to 1, both ends included, and nothing else:
    no other text, no number outside the interval, neither infinity nor
    [NaN], no [undefined]. *)
Theorem offload_ratio_accepted (v : Value) :
  accepts llmLlamaAccelerationOffloadRatioSchema v = true ↔
  v = VString "max" ∨ v = VString "off" ∨
  ∃ q, v = VNumber (Finite q) ∧
       QArith_base.Qle Q0 q ∧ QArith_base.Qle q Q1.
Proof.
  unfold llmLlamaAccelerationOffloadRatioSchema. split.
  - destruct v as [| | |[|neg|q]|s| |]; simpl; try done.
    + by destruct neg.
    + rewrite !orb_false_r, andb_true_r.
      intros [H0 H1]%andb_true_iff.
      apply QArith_base.Qle_bool_iff in H0, H1. by eauto 10.
    + rewrite orb_false_r. intros [H|H]%orb_true_iff;
        apply bool_decide_eq_true in H; subst; by eauto.
  - intros [-> | [-> | (q & -> & H0 & H1)]]; [done..|].
    simpl. apply QArith_base.Qle_bool_iff in H0, H1.
    unfold Q0, Q1 in *. by rewrite H0, H1.
Qed.




(** **** X22
    An accepted configuration that sets [contextLength] or [evalBatchSize]
    sets it to a finite whole number that is at least 1: zero, a negative
    number, a fraction, an infinity and [NaN] are all rejected. *)
Theorem context_length_is_a_positive_integer (fields : gmap string Value)
    (key : string) (v : Value) :
  accepts llmLoadModelConfigSchema (VObject fields) = true →
  key = "contextLength" ∨ key = "evalBatchSize" →
  fields !! key = Some v →
  v ≠ VUndefined →
  ∃ q, v = VNumber (Finite q) ∧ is_integer q = true ∧
       QArith_base.Qle Q1 q.
Proof.
  intros Hacc Hkey Hv Hdef.
  assert (accepts (z_optional (z_number [int; min Q1])) v = true) as Hnum.
  { unfold llmLoadModelConfigSchema in Hacc. cbn [accepts forallb] in Hacc.
    repeat (apply andb_true_iff in Hacc as [? Hacc]).
    destruct Hkey as [-> | ->]; by rewrite Hv in *. }
  destruct v as [| | |[|neg|q]| | |]; simpl in Hnum; try done.
  rewrite andb_true_r in Hnum. apply andb_true_iff in Hnum as [Hint Hmin].
  exists q. split; [done|]. split; [done|].
  by apply QArith_base.Qle_bool_iff.
Qed.

Lemma context_length_is_a_positive_integer_witness :
  ∃ q, number 4096 1 = VNumber (Finite q) ∧ is_integer q = true ∧
       QArith_base.Qle Q1 q.
Proof.
  apply (context_length_is_a_positive_integer
           {[ "contextLength" := number 4096 1 ]} "contextLength").
  - vm_compute. reflexivity.
  - by left.
  - reflexivity.
  - discriminate.
Defined.

End Schema.
